(** * Rank-based election simulation (Script/utils.py)

    A shallow embedding of the pandas code of [Script/utils.py]: the
    standings projection ([current_results]), the bottom/top queries, one
    redistribution round ([redistribute_bottom_points]), the elimination loop
    and the final tally of [simulateRankBasedElection], and the [bloc] lookup.

    Modelling conventions.
    - A data frame is the list of its rows, in row order; every frame shape
      that occurs in the code has its own record.
    - A float64 cell is [NaN] or an exact rational [Fin q]: rounding and
      infinities are outside the model, NaN propagation is inside it.
    - A Python exception is identified by the name of its class.
    - [sort_values] is modelled as a stable sort with NaN keys last, which is
      what pandas does on the short frames handled here.
    - The [print] calls of [redistribute_bottom_points] are diagnostics and
      are not modelled. *)

From Stdlib Require Import List String Bool Arith Lia ZArith QArith Lqa Permutation.
From Stdlib Require Import Sorted.
Import ListNotations.

(** ** Exceptions and results *)

Definition exn := string.

Definition IndexError : exn := "IndexError"%string.
Definition KeyError : exn := "KeyError"%string.

Inductive result (A : Type) : Type :=
| Ok (a : A)
| Raise (e : exn).

Arguments Ok {A} a.
Arguments Raise {A} e.

Definition bind {A B : Type} (m : result A) (k : A -> result B) : result B :=
  match m with
  | Ok a => k a
  | Raise e => Raise e
  end.

Notation "x <- m ;; k" := (bind m (fun x => k))
  (at level 61, m at next level, right associativity).

(** [.iloc[0]] and [.iloc[-1]] on a column: out of bounds on an empty one. *)
Definition iloc_first {A : Type} (l : list A) : result A :=
  match l with
  | [] => Raise IndexError
  | x :: _ => Ok x
  end.

Fixpoint iloc_last {A : Type} (l : list A) : result A :=
  match l with
  | [] => Raise IndexError
  | [x] => Ok x
  | _ :: l' => iloc_last l'
  end.

(** ** Float cells *)

Inductive float : Type :=
| NaN
| Fin (q : Q).

Definition isna (x : float) : bool :=
  match x with NaN => true | Fin _ => false end.

Definition notna (x : float) : bool := negb (isna x).

Definition fadd (x y : float) : float :=
  match x, y with
  | Fin a, Fin b => Fin (a + b)
  | _, _ => NaN
  end.

Definition fmul (x y : float) : float :=
  match x, y with
  | Fin a, Fin b => Fin (a * b)
  | _, _ => NaN
  end.

(** [x < y], [x >= y], [x == y] and [x != y]: every comparison with NaN is
    false, except [!=] which is true. *)
Definition flt (x y : float) : bool :=
  match x, y with
  | Fin a, Fin b => negb (Qle_bool b a)
  | _, _ => false
  end.

Definition fge (x y : float) : bool :=
  match x, y with
  | Fin a, Fin b => Qle_bool b a
  | _, _ => false
  end.

Definition feq (x y : float) : bool :=
  match x, y with
  | Fin a, Fin b => Qeq_bool a b
  | _, _ => false
  end.

Definition fne (x y : float) : bool := negb (feq x y).

(** Group aggregations; all three skip NaN cells. *)
Definition fmax2 (x y : float) : float :=
  match x, y with
  | NaN, _ => y
  | _, NaN => x
  | Fin a, Fin b => if Qle_bool a b then Fin b else Fin a
  end.

Definition agg_max (l : list float) : float := fold_left fmax2 l NaN.

Definition qvalues (l : list float) : list Q :=
  flat_map (fun x => match x with NaN => [] | Fin q => [q] end) l.

Definition qsum (l : list Q) : Q := fold_right Qplus 0 l.

Definition agg_sum (l : list float) : float := Fin (qsum (qvalues l)).

Definition agg_mean (l : list float) : float :=
  match qvalues l with
  | [] => NaN
  | qs => Fin (qsum qs / inject_Z (Z.of_nat (List.length qs)))
  end.

(** ** Sorting *)

Section Sorting.
Context {A : Type}.

(** Stable insertion sort: [before x y] says that [x] may stand in front
    of [y]; an element is put in front of the first one it may precede. *)
Variable before : A -> A -> bool.

Fixpoint insert (x : A) (l : list A) : list A :=
  match l with
  | [] => [x]
  | y :: l' => if before x y then x :: l else y :: insert x l'
  end.

Fixpoint sort (l : list A) : list A :=
  match l with
  | [] => []
  | x :: l' => insert x (sort l')
  end.

End Sorting.

(** [sort_values(col, ascending=False)]: rows with a NaN key go last, in
    their original order. *)
Definition sort_values_desc {A : Type} (key : A -> float) (l : list A) : list A :=
  sort (fun x y => fge (key x) (key y)) (filter (fun x => notna (key x)) l)
  ++ filter (fun x => isna (key x)) l.

(** [groupby(col)]: one group per distinct key, keys in ascending order. *)
Definition unique_sorted (keys : list string) : list string :=
  sort String.leb (nodup string_dec keys).

Definition groupby {A : Type} (key : A -> string) (data : list A)
  : list (string * list A) :=
  map (fun k => (k, filter (fun r => String.eqb (key r) k) data))
      (unique_sorted (map key data)).

(** ** Frames *)

(** The preference table built by [select_data], columns in frame order. *)
Module Row.
Record t : Type := mk {
  best_party : string;
  current_votes : float;
  next_best_party : string;
  redistribution_share : float;
  initial_votes : float;
  redistributed_votes : float
}.
End Row.

(** The frame returned by [current_results]. *)
Module Standing.
Record t : Type := mk {
  best_party : string;
  current_votes : float;
  redistributed_votes : float
}.
End Standing.

Definition table := list Row.t.

(** ** current_results, bottom_party_name, top_party_votes_share *)

Definition current_results (data : table) : list Standing.t :=
  sort_values_desc Standing.current_votes
    (map (fun g =>
            Standing.mk (fst g)
              (agg_max (map Row.current_votes (snd g)))
              (agg_max (map Row.redistributed_votes (snd g))))
         (groupby Row.best_party data)).

Definition bottom_party_name (data : table) : result string :=
  iloc_last
    (map Standing.best_party
       (filter (fun s => fne (Standing.current_votes s) (Fin 0))
               (current_results data))).

Definition count_totals (x : Standing.t) : Standing.t :=
  Standing.mk (Standing.best_party x)
    (fadd (Standing.current_votes x) (Standing.redistributed_votes x))
    (Standing.redistributed_votes x).

Definition top_party_votes_share (data : table) : result float :=
  iloc_first
    (map Standing.current_votes
       (sort_values_desc Standing.current_votes
          (map count_totals (current_results data)))).

(** ** redistribute_bottom_points *)

(** The frame [points_to_redistribute]: the rows of the bottom party, with
    [next_best_party] renamed to [best_party]. *)
Module Points.
Record t : Type := mk {
  best_party : string;
  points_to_redistribute : float
}.
End Points.

Definition points_frame (data : table) (bottom_party : string) : list Points.t :=
  map (fun x =>
         Points.mk (Row.next_best_party x)
           (fmul (Row.initial_votes x) (Row.redistribution_share x)))
      (filter (fun x => String.eqb (Row.best_party x) bottom_party) data).

(** [data.merge(points, how='left')], joined on the one shared column
    [best_party]: a row of [data] comes out once per matching row of
    [points], and once with a NaN cell when nothing matches. *)
Definition merge_left (data : table) (points : list Points.t)
  : list (Row.t * float) :=
  flat_map
    (fun x =>
       match filter (fun p => String.eqb (Points.best_party p) (Row.best_party x))
                    points with
       | [] => [(x, NaN)]
       | ms => map (fun p => (x, Points.points_to_redistribute p)) ms
       end)
    data.

Definition fill_bucket (xp : Row.t * float) : Row.t :=
  let (x, points) := xp in
  Row.mk (Row.best_party x) (Row.current_votes x) (Row.next_best_party x)
    (Row.redistribution_share x) (Row.initial_votes x)
    (fadd (Row.redistributed_votes x) points).

Definition reset_current (bottom_party : string) (x : Row.t) : Row.t :=
  if String.eqb (Row.best_party x) bottom_party
  then Row.mk (Row.best_party x) (Fin 0) (Row.next_best_party x)
         (Row.redistribution_share x) (Row.initial_votes x)
         (Row.redistributed_votes x)
  else x.

Definition redistribute_bottom_points (data : table) : result table :=
  bottom_party <- bottom_party_name data ;;
  top_vote_share <- top_party_votes_share data ;;
  let points_to_redistribute := points_frame data bottom_party in
  let new_df := map fill_bucket (merge_left data points_to_redistribute) in
  Ok (map (reset_current bottom_party) new_df).

(** ** simulateRankBasedElection *)

Module Diehard.
Record t : Type := mk {
  best_party : string;
  diehard_votes : float
}.
End Diehard.

(** The table collapsed to one row per party. *)
Module Party.
Record t : Type := mk {
  best_party : string;
  current_votes : float;
  redistributed_votes : float;
  initial_votes : float
}.
End Party.

(** The frame returned by [simulateRankBasedElection]. *)
Module Tally.
Record t : Type := mk {
  best_party : string;
  current_votes : float;
  redistributed_votes : float;
  initial_votes : float;
  diehard_votes : float
}.
End Tally.

Definition no_next_best (x : Row.t) : bool :=
  String.eqb (Row.next_best_party x) "inget parti"
  || String.eqb (Row.next_best_party x) "vet ej/uppgift saknas".

Definition diehard_frame (data : table) : list Diehard.t :=
  map (fun g => Diehard.mk (fst g) (agg_sum (map Diehard.diehard_votes (snd g))))
      (groupby Diehard.best_party
         (map (fun x =>
                 Diehard.mk (Row.best_party x)
                   (fmul (Row.initial_votes x) (Row.redistribution_share x)))
              (filter no_next_best data))).

(** How the [while] loop was left: its guard was false, its guard raised,
    or the round raised; [loop_count] is the variable's value at that
    moment. *)
Inductive loop_exit : Type :=
| Exited (data : table) (loop_count : nat)
| GuardRaised (e : exn) (loop_count : nat)
| RoundRaised (e : exn) (loop_count : nat).

Definition loop_guard (data : table) (loop_count : nat) : result bool :=
  share <- top_party_votes_share data ;;
  Ok (flt share (Fin 50)
      && (loop_count <? List.length (current_results data))%nat).

Fixpoint while_loop (fuel : nat) (data : table) (loop_count : nat)
  : option loop_exit :=
  match loop_guard data loop_count with
  | Raise e => Some (GuardRaised e loop_count)
  | Ok false => Some (Exited data loop_count)
  | Ok true =>
      match fuel with
      | O => None
      | S fuel' =>
          match redistribute_bottom_points data with
          | Raise e => Some (RoundRaised e loop_count)
          | Ok data' => while_loop fuel' data' (S loop_count)
          end
      end
  end.

(** Calls of [redistribute_bottom_points] made by the loop, the raising one
    included. *)
Definition rounds_run (x : loop_exit) : nat :=
  match x with
  | Exited _ loop_count => loop_count - 1
  | GuardRaised _ loop_count => loop_count - 1
  | RoundRaised _ loop_count => loop_count
  end.

Definition collapse (data : table) : list Party.t :=
  map (fun g =>
         Party.mk (fst g)
           (agg_mean (map Row.current_votes (snd g)))
           (agg_mean (map Row.redistributed_votes (snd g)))
           (agg_mean (map Row.initial_votes (snd g))))
      (groupby Row.best_party data).

(** [pd.merge(data, diehard_votes, how='outer')], joined on [best_party]:
    the union of the keys in ascending order, a missing side giving NaN. *)
Definition merge_outer (left : list Party.t) (right : list Diehard.t)
  : list Tally.t :=
  flat_map
    (fun k =>
       let ls := filter (fun p => String.eqb (Party.best_party p) k) left in
       let rs := filter (fun d => String.eqb (Diehard.best_party d) k) right in
       match ls, rs with
       | [], _ => map (fun d => Tally.mk k NaN NaN NaN (Diehard.diehard_votes d)) rs
       | _, [] =>
           map (fun p =>
                  Tally.mk k (Party.current_votes p) (Party.redistributed_votes p)
                    (Party.initial_votes p) NaN) ls
       | _, _ =>
           flat_map
             (fun p =>
                map (fun d =>
                       Tally.mk k (Party.current_votes p)
                         (Party.redistributed_votes p) (Party.initial_votes p)
                         (Diehard.diehard_votes d)) rs) ls
       end)
    (unique_sorted (map Party.best_party left ++ map Diehard.best_party right)).

Definition restore_unbudged (x : Tally.t) : Tally.t :=
  if feq (Tally.current_votes x) (Fin 0)
  then Tally.mk (Tally.best_party x) (Tally.diehard_votes x)
         (Tally.redistributed_votes x) (Tally.initial_votes x)
         (Tally.diehard_votes x)
  else x.

Definition add_redistributed (x : Tally.t) : Tally.t :=
  Tally.mk (Tally.best_party x)
    (fadd (Tally.current_votes x) (Tally.redistributed_votes x))
    (Tally.redistributed_votes x) (Tally.initial_votes x)
    (Tally.diehard_votes x).

Definition final_tally (data : table) (diehard_votes : list Diehard.t)
  : list Tally.t :=
  map add_redistributed
    (map restore_unbudged (merge_outer (collapse data) diehard_votes)).

Definition simulateRankBasedElection (fuel : nat) (data : table)
  : option (result (list Tally.t)) :=
  let diehard_votes := diehard_frame data in
  match while_loop fuel data 1 with
  | None => None
  | Some (Exited data' _) => Some (Ok (final_tally data' diehard_votes))
  | Some (GuardRaised e _) => Some (Raise e)
  | Some (RoundRaised e _) => Some (Raise e)
  end.

(** ** bloc *)

Definition bloc_table : list (string * string) :=
  [ ("V", "Socialdemokratin"); ("SD", "SD"); ("M", "Alliansen");
    ("C", "Alliansen"); ("L", "Alliansen"); ("KD", "Alliansen");
    ("S", "Socialdemokratin"); ("MP", "Socialdemokratin");
    ("övriga", "övriga") ]%string.

Fixpoint dict_get (d : list (string * string)) (k : string) : result string :=
  match d with
  | [] => Raise KeyError
  | (k', v) :: d' => if String.eqb k' k then Ok v else dict_get d' k
  end.

Definition bloc (party : string) : result string := dict_get bloc_table party.

(** ** Reference tables *)

Definition row (b : string) (c : Q) (n : string) (s : Q) : Row.t :=
  Row.mk b (Fin c) n (Fin s) (Fin c) (Fin 0).

(** Scenario A: X=50 with no second preference, Y=30 all to Z, Z=20 all
    to X. *)
Definition scenario_A : table :=
  [ row "X" 50 "inget parti" 1; row "Y" 30 "Z" 1; row "Z" 20 "X" 1 ]%string.

(** A three-party poll in which every party names every party: A=40,
    B=35, C=25, and three fifths of C's voters have no second preference. *)
Definition three_party_poll : table :=
  [ row "A" 40 "A" 0; row "A" 40 "B" (1#2); row "A" 40 "C" (1#2);
    row "B" 35 "A" (1#2); row "B" 35 "B" 0; row "B" 35 "C" (1#2);
    row "C" 25 "A" (1#5); row "C" 25 "B" (1#5); row "C" 25 "C" 0;
    row "C" 25 "inget parti" (3#5) ]%string.

(** The runner-up overtakes the leader once C is redistributed. *)
Definition overtaking_poll : table :=
  [ row "A" 45 "A" 0; row "A" 45 "B" 1; row "A" 45 "C" 0;
    row "B" 35 "A" 1; row "B" 35 "B" 0; row "B" 35 "C" 0;
    row "C" 20 "A" 0; row "C" 20 "B" 1; row "C" 20 "C" 0 ]%string.


(** A single party below one half. *)
Definition lone_party : table := [ row "A" 40 "inget parti" 1 ]%string.

(** ** Vocabulary of the statements *)

(** The distinct [best_party] values, as [groupby] orders them. *)
Definition parties (data : table) : list string :=
  unique_sorted (map Row.best_party data).

Definition rows_of (data : table) (k : string) : table :=
  filter (fun r => String.eqb (Row.best_party r) k) data.

(** The row of [current_results] for party [k]. *)
Definition standing_of (data : table) (k : string) : Standing.t :=
  Standing.mk k
    (agg_max (map Row.current_votes (rows_of data k)))
    (agg_max (map Row.redistributed_votes (rows_of data k))).

(** [current_votes + redistributed_votes] of a standing. *)
Definition total (s : Standing.t) : float :=
  fadd (Standing.current_votes s) (Standing.redistributed_votes s).

(** The values merged onto row [x] by the left join. *)
Definition addends (points : list Points.t) (x : Row.t) : list float :=
  match filter (fun p => String.eqb (Points.best_party p) (Row.best_party x))
               points with
  | [] => [NaN]
  | ms => map Points.points_to_redistribute ms
  end.

(** [k] successive rounds. *)
Fixpoint iter_rounds (k : nat) (data : table) : result table :=
  match k with
  | O => Ok data
  | S k' => data' <- redistribute_bottom_points data ;; iter_rounds k' data'
  end.

(** Party [p] has been zeroed: every row of it carries [current_votes = 0]. *)
Definition eliminated (p : string) (data : table) : Prop :=
  forall r, In r data -> Row.best_party r = p -> Row.current_votes r = Fin 0.

(** Number of distinct [best_party] values of a table. *)
Definition distinct_parties (data : table) : nat :=
  List.length (nodup string_dec (map Row.best_party data)).

(** What a normal exit after [k] rounds says about the run. *)
Definition ran_rounds (data : table) (loop_count k : nat) (data' : table) : Prop :=
  iter_rounds k data = Ok data'
  /\ (forall j, (j < k)%nat ->
        exists tj, iter_rounds j data = Ok tj
                   /\ loop_guard tj (loop_count + j) = Ok true)
  /\ loop_guard data' (loop_count + k) = Ok false.














(** The states of the three-party poll after its first and second round. *)
Definition three_party_round1 : table :=
  Eval vm_compute in
    match redistribute_bottom_points three_party_poll with
    | Ok d => d
    | Raise _ => []
    end.

Definition three_party_round2 : table :=
  Eval vm_compute in
    match redistribute_bottom_points three_party_round1 with
    | Ok d => d
    | Raise _ => []
    end.

(** Error classes that only the specification names; the code defines no
    exception class of its own. *)
Definition EmptyDatasetError : exn := "EmptyDatasetError"%string.
Definition UnknownPartyError : exn := "UnknownPartyError"%string.

(** The loop as the specification words it: [round_count] starts at 0 and
    is bounded by the number of parties with nonzero votes in the current
    table. *)
Definition nonzero_parties (data : table) : nat :=
  List.length
    (filter (fun s => fne (Standing.current_votes s) (Fin 0))
            (current_results data)).

Definition spec_guard (data : table) (round_count : nat) : result bool :=
  share <- top_party_votes_share data ;;
  Ok (flt share (Fin 50) && (round_count <? nonzero_parties data)%nat).

Fixpoint spec_loop (fuel : nat) (data : table) (round_count : nat)
  : option loop_exit :=
  match spec_guard data round_count with
  | Raise e => Some (GuardRaised e round_count)
  | Ok false => Some (Exited data round_count)
  | Ok true =>
      match fuel with
      | O => None
      | S fuel' =>
          match redistribute_bottom_points data with
          | Raise e => Some (RoundRaised e round_count)
          | Ok data' => spec_loop fuel' data' (S round_count)
          end
      end
  end.

(** ** Vocabulary of the further properties *)

(** [m] is the maximum of the cells [l], NaN cells skipped: NaN when there
    is no other cell, else a cell of [l] that no cell of [l] exceeds. *)
Definition skipna_max (l : list float) (m : float) : Prop :=
  (m = NaN /\ forall x, In x l -> x = NaN)
  \/ (exists q, m = Fin q /\ In m l
                /\ forall q', In (Fin q') l -> q' <= q).

(** Standings in non-increasing order of [current_votes]. *)
Definition by_current_desc (x y : Standing.t) : Prop :=
  fge (Standing.current_votes x) (Standing.current_votes y) = true.

(** No NaN cell in the [current_votes] column. *)
Definition finite_current (data : table) : bool :=
  forallb (fun r => notna (Row.current_votes r)) data.

(** The parties whose standing has nonzero [current_votes]. *)
Definition live_parties (data : table) : list string :=
  filter (fun k => fne (Standing.current_votes (standing_of data k)) (Fin 0))
         (parties data).

(** Only A has votes; every party names every party with share 0. *)
Definition spent_poll : table :=
  [ row "A" 10 "A" 0; row "A" 10 "B" 0; row "A" 10 "C" 0;
    row "B" 0 "A" 0; row "B" 0 "B" 0; row "B" 0 "C" 0;
    row "C" 0 "A" 0; row "C" 0 "B" 0; row "C" 0 "C" 0 ]%string.

(** X=40 without second preference, Y=35 all to Z, Z=25 all to X: Y is
    nobody's second preference. *)
Definition chain_poll : table :=
  [ row "X" 40 "inget parti" 1; row "Y" 35 "Z" 1; row "Z" 25 "X" 1 ]%string.

Definition chain_round1 : table :=
  Eval vm_compute in
    match redistribute_bottom_points chain_poll with
    | Ok d => d
    | Raise _ => []
    end.

(** The votes of party [k] without a usable second preference, as
    [simulateRankBasedElection] sums them before the loop. *)
Definition diehard_total (data : table) (k : string) : float :=
  agg_sum (map (fun r => fmul (Row.initial_votes r) (Row.redistribution_share r))
               (filter no_next_best (rows_of data k))).
(** * Facts about the building blocks *)

(** ** Float comparisons *)

Lemma fge_refl x : isna x = false -> fge x x = true.
Proof.
  destruct x as [|q]; simpl; [discriminate|].
  intros _. apply Qle_bool_iff. apply Qle_refl.
Qed.

Lemma fge_trans x y z : fge x y = true -> fge y z = true -> fge x z = true.
Proof.
  destruct x as [|a], y as [|b], z as [|c]; simpl; try discriminate.
  rewrite !Qle_bool_iff. intros Hba Hcb. eapply Qle_trans; eauto.
Qed.

Lemma fge_total x y :
  isna x = false -> isna y = false -> fge x y = false -> fge y x = true.
Proof.
  destruct x as [|a], y as [|b]; simpl; try discriminate.
  intros _ _ H. apply Qle_bool_iff.
  destruct (Qlt_le_dec a b) as [Hlt|Hle].
  - apply Qlt_le_weak; exact Hlt.
  - apply Qle_bool_iff in Hle. congruence.
Qed.

Lemma fge_Fin x q : fge x (Fin q) = true -> exists qv, x = Fin qv /\ q <= qv.
Proof.
  destruct x as [|a]; simpl; [discriminate|].
  intros H. exists a. split; [reflexivity|]. apply Qle_bool_iff; exact H.
Qed.

(** ** Sorting is a permutation *)

Section SortFacts.
Context {A : Type} (before : A -> A -> bool).

Lemma insert_perm x l : Permutation (insert before x l) (x :: l).
Proof.
  induction l as [|y l IH]; simpl.
  - apply Permutation_refl.
  - destruct (before x y).
    + apply Permutation_refl.
    + eapply Permutation_trans; [apply perm_skip; exact IH|apply perm_swap].
Qed.

Lemma sort_perm l : Permutation (sort before l) l.
Proof.
  induction l as [|x l IH]; simpl.
  - constructor.
  - eapply Permutation_trans; [apply insert_perm|apply perm_skip; exact IH].
Qed.

Lemma sort_nil_inv l : sort before l = [] -> l = [].
Proof.
  intros H. apply Permutation_nil.
  rewrite <- H. apply sort_perm.
Qed.

Lemma sort_length l : List.length (sort before l) = List.length l.
Proof. apply Permutation_length, sort_perm. Qed.

Lemma sort_In x l : In x (sort before l) <-> In x l.
Proof.
  split; apply Permutation_in; [|apply Permutation_sym]; apply sort_perm.
Qed.
End SortFacts.

Lemma filter_split_perm {A : Type} (f : A -> bool) (l : list A) :
  Permutation (filter f l ++ filter (fun x => negb (f x)) l) l.
Proof.
  induction l as [|x l IH]; simpl.
  - constructor.
  - destruct (f x); simpl.
    + apply perm_skip; exact IH.
    + apply Permutation_sym. eapply Permutation_trans.
      * apply perm_skip, Permutation_sym, IH.
      * apply Permutation_middle.
Qed.

Lemma sort_values_desc_perm {A : Type} (key : A -> float) (l : list A) :
  Permutation (sort_values_desc key l) l.
Proof.
  unfold sort_values_desc.
  eapply Permutation_trans.
  - apply Permutation_app_tail. apply sort_perm.
  - eapply Permutation_trans; [|apply (filter_split_perm (fun x => isna (key x)))].
    erewrite (filter_ext (fun x => notna (key x))).
    + apply Permutation_app_comm.
    + intros x. reflexivity.
Qed.

Lemma sort_values_desc_In {A : Type} (key : A -> float) (l : list A) x :
  In x (sort_values_desc key l) <-> In x l.
Proof.
  split; apply Permutation_in; [|apply Permutation_sym];
    apply sort_values_desc_perm.
Qed.

Lemma sort_values_desc_length {A : Type} (key : A -> float) (l : list A) :
  List.length (sort_values_desc key l) = List.length l.
Proof. apply Permutation_length, sort_values_desc_perm. Qed.

(** The head of a descending sort dominates every element. *)
Lemma sort_desc_head {A : Type} (key : A -> float) (l : list A) :
  (forall x, In x l -> isna (key x) = false) ->
  forall h tl, sort (fun x y => fge (key x) (key y)) l = h :: tl ->
  forall y, In y l -> fge (key h) (key y) = true.
Proof.
  induction l as [|x l IH]; intros Hfin h tl Hs y Hy; [contradiction|].
  simpl in Hs.
  assert (Hfin' : forall z, In z l -> isna (key z) = false)
    by (intros z Hz; apply Hfin; right; exact Hz).
  destruct (sort (fun x y => fge (key x) (key y)) l) as [|h' tl'] eqn:E.
  - apply sort_nil_inv in E. subst l. simpl in Hs. injection Hs as <- <-.
    destruct Hy as [<-|[]]. apply fge_refl, Hfin. left; reflexivity.
  - assert (Hh' : In h' l) by (apply (sort_In (fun x y => fge (key x) (key y))); rewrite E; left; reflexivity).
    simpl in Hs. destruct (fge (key x) (key h')) eqn:Hxh.
    + injection Hs as <- <-. destruct Hy as [<-|Hy].
      * apply fge_refl, Hfin. left; reflexivity.
      * eapply fge_trans; [exact Hxh|]. eapply IH; eauto.
    + injection Hs as <- <-. destruct Hy as [<-|Hy].
      * apply fge_total; auto. apply Hfin. left; reflexivity.
      * eapply IH; eauto.
Qed.

(** ** Grouping *)

Lemma unique_sorted_In k ks : In k (unique_sorted ks) <-> In k ks.
Proof.
  unfold unique_sorted. rewrite sort_In. apply nodup_In.
Qed.

Lemma unique_sorted_NoDup ks : NoDup (unique_sorted ks).
Proof.
  unfold unique_sorted.
  eapply Permutation_NoDup; [apply Permutation_sym, sort_perm|].
  apply NoDup_nodup.
Qed.

Lemma unique_sorted_length ks :
  List.length (unique_sorted ks) = List.length (nodup string_dec ks).
Proof. apply sort_length. Qed.

Lemma parties_In data k :
  In k (parties data) <-> exists r, In r data /\ Row.best_party r = k.
Proof.
  unfold parties. rewrite unique_sorted_In, in_map_iff.
  split; intros [r [H1 H2]]; exists r; auto.
Qed.

Lemma rows_of_In data k r :
  In r (rows_of data k) <-> In r data /\ Row.best_party r = k.
Proof.
  unfold rows_of. rewrite filter_In, String.eqb_eq. reflexivity.
Qed.

Lemma current_results_unfold data :
  current_results data =
  sort_values_desc Standing.current_votes (map (standing_of data) (parties data)).
Proof.
  unfold current_results, groupby. rewrite map_map. reflexivity.
Qed.

Lemma current_results_In data s :
  In s (current_results data) <->
  exists k, In k (parties data) /\ s = standing_of data k.
Proof.
  rewrite current_results_unfold, sort_values_desc_In, in_map_iff.
  split; intros [k [H1 H2]]; exists k; auto.
Qed.

Lemma current_results_length data :
  List.length (current_results data) =
  List.length (nodup string_dec (map Row.best_party data)).
Proof.
  rewrite current_results_unfold, sort_values_desc_length, length_map.
  apply unique_sorted_length.
Qed.

Lemma current_results_nonempty data :
  data <> [] -> current_results data <> [].
Proof.
  intros Hne Hnil. destruct data as [|r data]; [congruence|].
  assert (Hin : In (standing_of (r :: data) (Row.best_party r))
                   (current_results (r :: data))).
  { apply current_results_In. eexists; split; [|reflexivity].
    apply parties_In. exists r. split; [left|]; reflexivity. }
  rewrite Hnil in Hin. contradiction.
Qed.

(** ** The leading share *)

Lemma count_totals_current s :
  Standing.current_votes (count_totals s) = total s.
Proof. reflexivity. Qed.

Lemma top_party_votes_share_spec data :
  data <> [] ->
  exists v,
    top_party_votes_share data = Ok v
    /\ (exists s, In s (current_results data) /\ v = total s)
    /\ (forall s q, In s (current_results data) -> total s = Fin q ->
                    exists qv, v = Fin qv /\ q <= qv).
Proof.
  intros Hne. unfold top_party_votes_share, sort_values_desc.
  set (L := map count_totals (current_results data)).
  set (before := fun x y : Standing.t =>
                   fge (Standing.current_votes x) (Standing.current_votes y)).
  assert (HL : forall x, In x L ->
                 exists s, In s (current_results data) /\ x = count_totals s).
  { intros x Hx. apply in_map_iff in Hx. destruct Hx as [s [<- Hs]]. eauto. }
  destruct (sort before (filter (fun x => notna (Standing.current_votes x)) L))
    as [|h tl] eqn:E.
  - apply sort_nil_inv in E. simpl.
    destruct (filter (fun x => isna (Standing.current_votes x)) L)
      as [|n tl] eqn:En.
    + exfalso. apply (current_results_nonempty data Hne).
      assert (HLnil : L = []).
      { apply Permutation_nil.
        eapply Permutation_trans;
          [|apply (filter_split_perm (fun x => isna (Standing.current_votes x)))].
        rewrite En. simpl.
        erewrite filter_ext; [rewrite E; constructor|]. intros; reflexivity. }
      unfold L in HLnil. apply map_eq_nil in HLnil. exact HLnil.
    + simpl. eexists; split; [reflexivity|]. split.
      * assert (Hn : In n L).
        { eapply (proj1 (filter_In _ n L)). rewrite En. left; reflexivity. }
        destruct (HL _ Hn) as [s [Hs ->]]. exists s. split; auto.
      * intros s q Hs Hq. exfalso.
        assert (Hin : In (count_totals s)
                         (filter (fun x => notna (Standing.current_votes x)) L)).
        { apply filter_In. split; [apply in_map; exact Hs|].
          rewrite count_totals_current, Hq. reflexivity. }
        rewrite E in Hin. contradiction.
  - simpl. eexists; split; [reflexivity|].
    assert (Hh : In h (filter (fun x => notna (Standing.current_votes x)) L)).
    { apply (sort_In before). rewrite E. left; reflexivity. }
    split.
    + apply filter_In in Hh. destruct Hh as [Hh _].
      destruct (HL _ Hh) as [s [Hs ->]]. exists s. split; auto.
    + intros s q Hs Hq.
      apply fge_Fin. rewrite <- Hq, <- count_totals_current.
      eapply (sort_desc_head Standing.current_votes); [|exact E|].
      * intros x Hx. apply filter_In in Hx. destruct Hx as [_ Hx].
        unfold notna in Hx. destruct (isna (Standing.current_votes x));
          [discriminate|reflexivity].
      * apply filter_In. split; [apply in_map; exact Hs|].
        rewrite count_totals_current, Hq. reflexivity.
Qed.

(** ** One round *)

Lemma merge_left_unfold data points :
  merge_left data points =
  flat_map (fun x => map (pair x) (addends points x)) data.
Proof.
  unfold merge_left, addends. apply flat_map_ext. intros x.
  destruct (filter _ points); [reflexivity|]. rewrite map_map. reflexivity.
Qed.

Lemma addends_nonempty points x : addends points x <> [].
Proof.
  unfold addends. destruct (filter _ points); discriminate.
Qed.

Lemma redistribute_unfold data data' :
  redistribute_bottom_points data = Ok data' ->
  exists b,
    bottom_party_name data = Ok b
    /\ data' =
       flat_map (fun x =>
                   map (fun a => reset_current b (fill_bucket (x, a)))
                       (addends (points_frame data b) x)) data.
Proof.
  unfold redistribute_bottom_points.
  destruct (bottom_party_name data) as [b|e]; simpl; [|discriminate].
  destruct (top_party_votes_share data) as [v|e]; simpl; [|discriminate].
  intros H. injection H as <-. exists b. split; [reflexivity|].
  rewrite merge_left_unfold, !flat_map_concat_map, !concat_map, !map_map.
  f_equal. apply map_ext. intros x. rewrite !map_map. reflexivity.
Qed.

Lemma reset_current_best_party b x :
  Row.best_party (reset_current b x) = Row.best_party x.
Proof. unfold reset_current. destruct (String.eqb _ b); reflexivity. Qed.

Lemma fill_bucket_best_party x a :
  Row.best_party (fill_bucket (x, a)) = Row.best_party x.
Proof. reflexivity. Qed.

Lemma redistribute_In data data' b :
  data' =
    flat_map (fun x =>
                map (fun a => reset_current b (fill_bucket (x, a)))
                    (addends (points_frame data b) x)) data ->
  forall r',
  In r' data' <->
  exists x a, In x data /\ In a (addends (points_frame data b) x)
              /\ r' = reset_current b (fill_bucket (x, a)).
Proof.
  intros -> r'. rewrite in_flat_map. split.
  - intros [x [Hx Hr]]. apply in_map_iff in Hr. destruct Hr as [a [<- Ha]].
    exists x, a. auto.
  - intros [x [a [Hx [Ha ->]]]]. exists x. split; [exact Hx|].
    apply in_map_iff. exists a. auto.
Qed.

(** A round keeps the set of parties. *)
Lemma redistribute_best_parties data data' :
  redistribute_bottom_points data = Ok data' ->
  forall k, In k (map Row.best_party data') <-> In k (map Row.best_party data).
Proof.
  intros H k. destruct (redistribute_unfold _ _ H) as [b [_ Hd]].
  rewrite !in_map_iff. split.
  - intros [r' [<- Hr']]. apply (redistribute_In _ _ _ Hd) in Hr'.
    destruct Hr' as [x [a [Hx [_ ->]]]]. exists x. split; [|exact Hx].
    rewrite reset_current_best_party. reflexivity.
  - intros [x [<- Hx]].
    destruct (addends (points_frame data b) x) as [|a l] eqn:E;
      [exfalso; eapply addends_nonempty; eauto|].
    exists (reset_current b (fill_bucket (x, a))). split.
    + rewrite reset_current_best_party. reflexivity.
    + apply (redistribute_In _ _ _ Hd). exists x, a.
      rewrite E. split; [exact Hx|]. split; [left|]; reflexivity.
Qed.

Lemma redistribute_distinct_parties data data' :
  redistribute_bottom_points data = Ok data' ->
  distinct_parties data' = distinct_parties data.
Proof.
  intros H. unfold distinct_parties. apply Permutation_length.
  apply NoDup_Permutation; try apply NoDup_nodup.
  intros k. rewrite !nodup_In. apply redistribute_best_parties; exact H.
Qed.

Lemma current_results_distinct data :
  List.length (current_results data) = distinct_parties data.
Proof. apply current_results_length. Qed.

(** ** Zeroed parties *)

Lemma agg_max_zeros l :
  l <> [] -> (forall x, In x l -> x = Fin 0) -> agg_max l = Fin 0.
Proof.
  unfold agg_max. intros Hne Hall.
  assert (G : forall l acc, (forall x, In x l -> x = Fin 0) ->
              (acc = Fin 0 \/ (acc = NaN /\ l <> [])) ->
              fold_left fmax2 l acc = Fin 0).
  { clear. induction l as [|x l IH]; intros acc Hall Hacc; simpl.
    - destruct Hacc as [->|[_ Hne]]; [reflexivity|congruence].
    - apply IH; [intros y Hy; apply Hall; right; exact Hy|].
      left. rewrite (Hall x) by (left; reflexivity).
      destruct Hacc as [->|[-> _]]; reflexivity. }
  apply G; auto.
Qed.

Lemma iloc_last_In {A : Type} (l : list A) x : iloc_last l = Ok x -> In x l.
Proof.
  induction l as [|y l IH]; simpl; [discriminate|].
  destruct l as [|z l].
  - intros H. injection H as ->. left; reflexivity.
  - intros H. right. apply IH. exact H.
Qed.

Lemma bottom_party_name_standing data b :
  bottom_party_name data = Ok b ->
  In b (parties data)
  /\ fne (Standing.current_votes (standing_of data b)) (Fin 0) = true.
Proof.
  unfold bottom_party_name. intros H. apply iloc_last_In in H.
  apply in_map_iff in H. destruct H as [s [Hb Hs]].
  apply filter_In in Hs. destruct Hs as [Hs Hne].
  apply current_results_In in Hs. destruct Hs as [k [Hk ->]].
  simpl in Hb. subst k. auto.
Qed.

Lemma eliminated_not_bottom p data :
  eliminated p data -> bottom_party_name data <> Ok p.
Proof.
  intros He Hb. apply bottom_party_name_standing in Hb.
  destruct Hb as [Hp Hne]. simpl in Hne.
  rewrite agg_max_zeros in Hne; [discriminate| |].
  - apply parties_In in Hp. destruct Hp as [r [Hr Hk]].
    intros E. apply map_eq_nil in E.
    assert (Hin : In r (rows_of data p)) by (apply rows_of_In; auto).
    rewrite E in Hin. contradiction.
  - intros x Hx. apply in_map_iff in Hx. destruct Hx as [r [<- Hr]].
    apply rows_of_In in Hr. destruct Hr as [Hr Hk]. apply He; auto.
Qed.

Lemma reset_current_votes b x :
  Row.current_votes (reset_current b x) =
  if String.eqb (Row.best_party x) b then Fin 0 else Row.current_votes x.
Proof. unfold reset_current. destruct (String.eqb _ b); reflexivity. Qed.

Lemma redistribute_keeps_eliminated p data data' :
  eliminated p data ->
  redistribute_bottom_points data = Ok data' ->
  eliminated p data'.
Proof.
  intros He H r' Hr' Hp. destruct (redistribute_unfold _ _ H) as [b [_ Hd]].
  apply (redistribute_In _ _ _ Hd) in Hr'. destruct Hr' as [x [a [Hx [_ ->]]]].
  rewrite reset_current_best_party, fill_bucket_best_party in Hp.
  rewrite reset_current_votes, fill_bucket_best_party.
  destruct (String.eqb (Row.best_party x) b); [reflexivity|].
  simpl. apply He; auto.
Qed.

Lemma redistribute_eliminates_bottom b data data' :
  bottom_party_name data = Ok b ->
  redistribute_bottom_points data = Ok data' ->
  eliminated b data'.
Proof.
  intros Hb H r' Hr' Hp. destruct (redistribute_unfold _ _ H) as [b' [Hb' Hd]].
  assert (b' = b) by congruence. subst b'.
  apply (redistribute_In _ _ _ Hd) in Hr'. destruct Hr' as [x [a [Hx [_ ->]]]].
  rewrite reset_current_best_party, fill_bucket_best_party in Hp.
  rewrite reset_current_votes, fill_bucket_best_party.
  apply String.eqb_eq in Hp. rewrite Hp. reflexivity.
Qed.

Lemma iter_rounds_keeps_eliminated p k :
  forall data data',
    eliminated p data -> iter_rounds k data = Ok data' -> eliminated p data'.
Proof.
  induction k as [|k IH]; intros data data' He H; simpl in H.
  - injection H as <-. exact He.
  - destruct (redistribute_bottom_points data) as [d1|e] eqn:E;
      simpl in H; [|discriminate].
    eapply IH; [|exact H]. eapply redistribute_keeps_eliminated; eauto.
Qed.

(** ** The elimination loop *)

Lemma while_loop_eq fuel data loop_count :
  while_loop fuel data loop_count =
  match loop_guard data loop_count with
  | Raise e => Some (GuardRaised e loop_count)
  | Ok false => Some (Exited data loop_count)
  | Ok true =>
      match fuel with
      | O => None
      | S fuel' =>
          match redistribute_bottom_points data with
          | Raise e => Some (RoundRaised e loop_count)
          | Ok data' => while_loop fuel' data' (S loop_count)
          end
      end
  end.
Proof. destruct fuel; reflexivity. Qed.

Lemma loop_guard_Ok data loop_count g :
  loop_guard data loop_count = Ok g ->
  exists share,
    top_party_votes_share data = Ok share
    /\ g = flt share (Fin 50) && (loop_count <? distinct_parties data)%nat.
Proof.
  unfold loop_guard.
  destruct (top_party_votes_share data) as [share|e]; simpl; [|discriminate].
  intros H. injection H as <-. exists share. split; [reflexivity|].
  rewrite current_results_distinct. reflexivity.
Qed.

Lemma loop_guard_true data loop_count :
  loop_guard data loop_count = Ok true <->
  exists share,
    top_party_votes_share data = Ok share
    /\ flt share (Fin 50) = true
    /\ (loop_count < distinct_parties data)%nat.
Proof.
  split.
  - intros H. apply loop_guard_Ok in H. destruct H as [share [Ht Hg]].
    symmetry in Hg. apply andb_true_iff in Hg. destruct Hg as [H1 H2].
    apply Nat.ltb_lt in H2. eauto.
  - intros [share [Ht [H1 H2]]]. unfold loop_guard. rewrite Ht. simpl.
    rewrite H1, current_results_distinct.
    apply Nat.ltb_lt in H2. rewrite H2. reflexivity.
Qed.

Lemma loop_guard_false data loop_count :
  loop_guard data loop_count = Ok false <->
  exists share,
    top_party_votes_share data = Ok share
    /\ (flt share (Fin 50) = false
        \/ (distinct_parties data <= loop_count)%nat).
Proof.
  split.
  - intros H. apply loop_guard_Ok in H. destruct H as [share [Ht Hg]].
    symmetry in Hg. apply andb_false_iff in Hg.
    exists share. split; [exact Ht|].
    destruct Hg as [H1|H2]; [left; exact H1|right].
    apply Nat.ltb_ge in H2. exact H2.
  - intros [share [Ht Hg]]. unfold loop_guard. rewrite Ht. simpl.
    rewrite current_results_distinct. f_equal. apply andb_false_iff.
    destruct Hg as [H1|H2]; [left; exact H1|right].
    apply Nat.ltb_ge. exact H2.
Qed.

(** Enough fuel: the loop is left after finitely many rounds. *)
Lemma while_loop_terminates fuel :
  forall data loop_count,
    (distinct_parties data <= fuel + loop_count)%nat ->
    exists out, while_loop fuel data loop_count = Some out.
Proof.
  induction fuel as [|fuel IH]; intros data lc Hf; rewrite while_loop_eq.
  - destruct (loop_guard data lc) as [[|]|e] eqn:G; eauto.
    apply loop_guard_true in G. destruct G as [_ [_ [_ G]]]. lia.
  - destruct (loop_guard data lc) as [[|]|e] eqn:G; eauto.
    destruct (redistribute_bottom_points data) as [d1|e] eqn:R; eauto.
    apply IH. rewrite (redistribute_distinct_parties _ _ R). lia.
Qed.

Lemma while_loop_rounds fuel :
  forall data loop_count out,
    (1 <= loop_count)%nat ->
    while_loop fuel data loop_count = Some out ->
    (rounds_run out + 1 <= Nat.max loop_count (distinct_parties data))%nat.
Proof.
  induction fuel as [|fuel IH]; intros data lc out Hlc H;
    rewrite while_loop_eq in H;
    destruct (loop_guard data lc) as [[|]|e] eqn:G;
    try (injection H as <-; simpl; lia); try discriminate.
  apply loop_guard_true in G. destruct G as [_ [_ [_ G]]].
  destruct (redistribute_bottom_points data) as [d1|e] eqn:R.
  - apply IH in H; [|lia].
    rewrite (redistribute_distinct_parties _ _ R) in H. lia.
  - injection H as <-. simpl. lia.
Qed.

Lemma iter_rounds_S k data d1 :
  redistribute_bottom_points data = Ok d1 ->
  iter_rounds (S k) data = iter_rounds k d1.
Proof. intros H. simpl. rewrite H. reflexivity. Qed.

Lemma while_loop_sound fuel :
  forall data loop_count data' c,
    while_loop fuel data loop_count = Some (Exited data' c) ->
    exists k, c = (loop_count + k)%nat /\ (k <= fuel)%nat
              /\ ran_rounds data loop_count k data'.
Proof.
  induction fuel as [|fuel IH]; intros data lc data' c H;
    rewrite while_loop_eq in H;
    destruct (loop_guard data lc) as [[|]|e] eqn:G; try discriminate.
  - injection H as <- <-. exists 0%nat. rewrite Nat.add_0_r.
    split; [reflexivity|]. split; [lia|]. split; [reflexivity|].
    split; [intros j Hj; lia|]. rewrite Nat.add_0_r. exact G.
  - destruct (redistribute_bottom_points data) as [d1|e] eqn:R;
      [|discriminate].
    apply IH in H. destruct H as [k [-> [Hk [Hit [Hg Hex]]]]].
    exists (S k). split; [lia|]. split; [lia|]. split; [|split].
    + rewrite (iter_rounds_S _ _ _ R). exact Hit.
    + intros [|j] Hj.
      * exists data. rewrite Nat.add_0_r. auto.
      * destruct (Hg j) as [tj [Htj Hgj]]; [lia|].
        exists tj. rewrite (iter_rounds_S _ _ _ R).
        replace (lc + S j)%nat with (S lc + j)%nat by lia. auto.
    + replace (lc + S k)%nat with (S lc + k)%nat by lia. exact Hex.
  - injection H as <- <-. exists 0%nat. rewrite Nat.add_0_r.
    split; [reflexivity|]. split; [lia|]. split; [reflexivity|].
    split; [intros j Hj; lia|]. rewrite Nat.add_0_r. exact G.
Qed.

Lemma while_loop_complete k :
  forall fuel data loop_count data',
    (k <= fuel)%nat ->
    ran_rounds data loop_count k data' ->
    while_loop fuel data loop_count = Some (Exited data' (loop_count + k)).
Proof.
  induction k as [|k IH]; intros fuel data lc data' Hk [Hit [Hg Hex]];
    rewrite while_loop_eq.
  - simpl in Hit. injection Hit as <-. rewrite Nat.add_0_r in *.
    rewrite Hex. reflexivity.
  - destruct (Hg 0%nat) as [t0 [Ht0 Hg0]]; [lia|].
    simpl in Ht0. injection Ht0 as <-. rewrite Nat.add_0_r in Hg0.
    rewrite Hg0. destruct fuel as [|fuel]; [lia|].
    destruct (redistribute_bottom_points data) as [d1|e] eqn:R.
    + replace (lc + S k)%nat with (S lc + k)%nat by lia.
      apply IH; [lia|]. split; [|split].
      * rewrite <- (iter_rounds_S _ _ _ R). exact Hit.
      * intros j Hj. destruct (Hg (S j)) as [tj [Htj Hgj]]; [lia|].
        exists tj. rewrite <- (iter_rounds_S _ _ _ R).
        replace (S lc + j)%nat with (lc + S j)%nat by lia. auto.
      * replace (S lc + k)%nat with (lc + S k)%nat by lia. exact Hex.
    + simpl in Hit. rewrite R in Hit. discriminate.
Qed.

(** ** Runs of several rounds *)

Lemma iter_rounds_add a :
  forall b data,
    iter_rounds (a + b) data = (d <- iter_rounds a data ;; iter_rounds b d).
Proof.
  induction a as [|a IH]; intros b data; simpl.
  - reflexivity.
  - destruct (redistribute_bottom_points data) as [d1|e]; simpl.
    + apply IH.
    + reflexivity.
Qed.

Lemma redistribute_parties data data' p :
  redistribute_bottom_points data = Ok data' ->
  In p (parties data) -> In p (parties data').
Proof.
  intros H. unfold parties. rewrite !unique_sorted_In.
  apply (redistribute_best_parties _ _ H).
Qed.

Lemma iter_rounds_parties k :
  forall data data' p,
    iter_rounds k data = Ok data' ->
    In p (parties data) -> In p (parties data').
Proof.
  induction k as [|k IH]; intros data data' p H Hp; simpl in H.
  - injection H as <-. exact Hp.
  - destruct (redistribute_bottom_points data) as [d1|e] eqn:R;
      simpl in H; [|discriminate].
    eapply IH; [exact H|]. eapply redistribute_parties; eauto.
Qed.

(** The bottom party of round [j + 1] is zeroed in every later state. *)
Lemma eliminated_in_run data k data' j tj p :
  iter_rounds k data = Ok data' ->
  (j < k)%nat ->
  iter_rounds j data = Ok tj ->
  bottom_party_name tj = Ok p ->
  eliminated p data' /\ In p (parties data').
Proof.
  intros Hk Hj Htj Hb.
  replace k with (j + S (k - S j))%nat in Hk by lia.
  rewrite iter_rounds_add, Htj in Hk. simpl in Hk.
  destruct (redistribute_bottom_points tj) as [t1|e] eqn:R;
    simpl in Hk; [|discriminate].
  split.
  - eapply iter_rounds_keeps_eliminated; [|exact Hk].
    eapply redistribute_eliminates_bottom; eauto.
  - eapply iter_rounds_parties; [exact Hk|].
    eapply redistribute_parties; [exact R|].
    apply bottom_party_name_standing in Hb. tauto.
Qed.

(** ** The final tally *)

Lemma qvalues_zeros l :
  (forall x, In x l -> x = Fin 0) ->
  qsum (qvalues l) == 0 /\ (l <> [] -> qvalues l <> []).
Proof.
  induction l as [|x l IH]; intros Hall.
  - split; [reflexivity|congruence].
  - rewrite (Hall x) by (left; reflexivity).
    destruct IH as [IH _]; [intros y Hy; apply Hall; right; exact Hy|].
    split; [|intros _; discriminate].
    change (0 + qsum (qvalues l) == 0). rewrite IH. reflexivity.
Qed.

Lemma agg_mean_zeros l :
  l <> [] -> (forall x, In x l -> x = Fin 0) ->
  feq (agg_mean l) (Fin 0) = true.
Proof.
  intros Hne Hall. destruct (qvalues_zeros l Hall) as [Hs Hq].
  specialize (Hq Hne). unfold agg_mean.
  destruct (qvalues l) as [|q qs]; [congruence|].
  simpl feq. apply Qeq_bool_iff. unfold Qdiv. rewrite Hs.
  apply Qmult_0_l.
Qed.

Lemma collapse_In data x :
  In x (collapse data) <->
  exists k, In k (parties data)
    /\ x = Party.mk k
             (agg_mean (map Row.current_votes (rows_of data k)))
             (agg_mean (map Row.redistributed_votes (rows_of data k)))
             (agg_mean (map Row.initial_votes (rows_of data k))).
Proof.
  unfold collapse, groupby. rewrite map_map, in_map_iff.
  split; intros [k [H1 H2]]; exists k; auto.
Qed.

Lemma collapse_eliminated data p x :
  eliminated p data ->
  In x (collapse data) -> Party.best_party x = p ->
  feq (Party.current_votes x) (Fin 0) = true.
Proof.
  intros He Hx Hp. apply collapse_In in Hx. destruct Hx as [k [Hk ->]].
  simpl in Hp. subst k. simpl. apply agg_mean_zeros.
  - apply parties_In in Hk. destruct Hk as [r [Hr Hrp]].
    intros E. apply map_eq_nil in E.
    assert (Hin : In r (rows_of data p)) by (apply rows_of_In; auto).
    rewrite E in Hin. contradiction.
  - intros y Hy. apply in_map_iff in Hy. destruct Hy as [r [<- Hr]].
    apply rows_of_In in Hr. destruct Hr as [Hr Hrp]. apply He; auto.
Qed.

Lemma diehard_frame_keys data d :
  In d (diehard_frame data) ->
  exists r, In r data /\ no_next_best r = true
            /\ Row.best_party r = Diehard.best_party d.
Proof.
  unfold diehard_frame, groupby. rewrite map_map, in_map_iff.
  intros [k [<- Hk]]. simpl. apply (proj1 (unique_sorted_In _ _)) in Hk.
  rewrite map_map in Hk. apply in_map_iff in Hk.
  destruct Hk as [r [Hr Hin]]. apply filter_In in Hin.
  exists r. simpl in Hr. tauto.
Qed.

Lemma diehard_frame_absent data p :
  (forall r, In r data -> Row.best_party r = p -> no_next_best r = false) ->
  filter (fun d => String.eqb (Diehard.best_party d) p) (diehard_frame data) = [].
Proof.
  intros Hno.
  destruct (filter _ (diehard_frame data)) as [|d l] eqn:E; [reflexivity|].
  exfalso.
  assert (Hd : In d (filter (fun d => String.eqb (Diehard.best_party d) p)
                            (diehard_frame data)))
    by (rewrite E; left; reflexivity).
  apply filter_In in Hd. destruct Hd as [Hd Hp]. apply String.eqb_eq in Hp.
  apply diehard_frame_keys in Hd. destruct Hd as [r [Hr [Hn Hk]]].
  rewrite (Hno r Hr) in Hn; [discriminate|congruence].
Qed.

(** A party without a row on the right side of the outer join gets a NaN
    [diehard_votes] cell on each of its left rows. *)
Lemma merge_outer_left_only left right p y :
  filter (fun d => String.eqb (Diehard.best_party d) p) right = [] ->
  In y (merge_outer left right) -> Tally.best_party y = p ->
  exists x, In x left /\ Party.best_party x = p
            /\ y = Tally.mk p (Party.current_votes x)
                     (Party.redistributed_votes x) (Party.initial_votes x) NaN.
Proof.
  intros Hr Hy Hp. unfold merge_outer in Hy. apply in_flat_map in Hy.
  destruct Hy as [k [_ Hy]].
  assert (Hk : k = p).
  { destruct (filter (fun p0 => String.eqb (Party.best_party p0) k) left);
      [|destruct (filter (fun d => String.eqb (Diehard.best_party d) k) right)].
    - apply in_map_iff in Hy. destruct Hy as [d [<- _]]. exact Hp.
    - apply in_map_iff in Hy. destruct Hy as [x [<- _]]. exact Hp.
    - apply in_flat_map in Hy. destruct Hy as [x [_ Hy]].
      apply in_map_iff in Hy. destruct Hy as [d [<- _]]. exact Hp. }
  subst k. rewrite Hr in Hy.
  destruct (filter (fun p0 => String.eqb (Party.best_party p0) p) left)
    as [|x0 l0] eqn:El.
  - contradiction.
  - apply in_map_iff in Hy. destruct Hy as [x [<- Hx]].
    rewrite <- El in Hx. apply filter_In in Hx. destruct Hx as [Hx Hxp].
    apply String.eqb_eq in Hxp. exists x. auto.
Qed.

Lemma merge_outer_left_present left right p x :
  filter (fun d => String.eqb (Diehard.best_party d) p) right = [] ->
  In x left -> Party.best_party x = p ->
  exists y, In y (merge_outer left right) /\ Tally.best_party y = p.
Proof.
  intros Hr Hx Hp.
  exists (Tally.mk p (Party.current_votes x) (Party.redistributed_votes x)
            (Party.initial_votes x) NaN).
  split; [|reflexivity]. unfold merge_outer. apply in_flat_map.
  exists p. split.
  - apply unique_sorted_In, in_or_app. left.
    apply in_map_iff. exists x. auto.
  - rewrite Hr.
    assert (Hin : In x (filter (fun p0 => String.eqb (Party.best_party p0) p)
                               left))
      by (apply filter_In; split; [exact Hx|apply String.eqb_eq; exact Hp]).
    destruct (filter (fun p0 => String.eqb (Party.best_party p0) p) left)
      as [|x0 l0] eqn:El; [contradiction|].
    apply in_map_iff. exists x. auto.
Qed.

Lemma final_tally_eliminated data' diehard_votes p :
  eliminated p data' -> In p (parties data') ->
  filter (fun d => String.eqb (Diehard.best_party d) p) diehard_votes = [] ->
  (exists x, In x (final_tally data' diehard_votes) /\ Tally.best_party x = p)
  /\ (forall x, In x (final_tally data' diehard_votes) ->
                Tally.best_party x = p -> Tally.current_votes x = NaN).
Proof.
  intros He Hp Hd. unfold final_tally. split.
  - assert (Hc : exists c, In c (collapse data') /\ Party.best_party c = p).
    { eexists. split; [apply collapse_In; exists p; split; [exact Hp|reflexivity]|].
      reflexivity. }
    destruct Hc as [c [Hc Hcp]].
    destruct (merge_outer_left_present _ _ _ _ Hd Hc Hcp) as [y [Hy Hyp]].
    exists (add_redistributed (restore_unbudged y)). split.
    + apply in_map, in_map. exact Hy.
    + simpl. unfold restore_unbudged.
      destruct (feq (Tally.current_votes y) (Fin 0)); exact Hyp.
  - intros x Hx Hxp. apply in_map_iff in Hx. destruct Hx as [z [<- Hz]].
    apply in_map_iff in Hz. destruct Hz as [y [<- Hy]].
    assert (Hyp : Tally.best_party y = p).
    { simpl in Hxp. unfold restore_unbudged in Hxp.
      destruct (feq (Tally.current_votes y) (Fin 0)); exact Hxp. }
    destruct (merge_outer_left_only _ _ _ _ Hd Hy Hyp) as [c [Hc [Hcp ->]]].
    unfold restore_unbudged. simpl Tally.current_votes at 2.
    rewrite (collapse_eliminated _ _ _ He Hc Hcp). reflexivity.
Qed.

(** ** Sums *)


Lemma notna_isna x : notna x = true <-> isna x = false.
Proof. unfold notna. destruct (isna x); simpl; split; congruence. Qed.





Lemma qsum_app l l' : qsum (l ++ l') == qsum l + qsum l'.
Proof.
  induction l as [|x l IH]; simpl.
  - ring.
  - rewrite IH. ring.
Qed.



(** ** agg_max *)



Lemma agg_max_finite l :
  l <> [] -> (forall x, In x l -> isna x = false) -> isna (agg_max l) = false.
Proof.
  unfold agg_max. intros Hne Hall.
  assert (G : forall l acc, (forall x, In x l -> isna x = false) ->
              (isna acc = false \/ l <> []) ->
              isna (fold_left fmax2 l acc) = false).
  { clear. induction l as [|x l IH]; intros acc Hall Hacc; simpl.
    - destruct Hacc as [H|H]; [exact H|congruence].
    - apply IH; [intros y Hy; apply Hall; right; exact Hy|]. left.
      assert (Hx : isna x = false) by (apply Hall; left; reflexivity).
      destruct acc as [|a], x as [|b]; simpl in *; try congruence.
      destruct (Qle_bool a b); reflexivity. }
  apply G; auto.
Qed.

(** ** A round on a table where every party receives once *)

Lemma flat_map_singletons {A B : Type} (f : A -> list B) (g : A -> B) l :
  (forall x, In x l -> f x = [g x]) -> flat_map f l = map g l.
Proof.
  induction l as [|x l IH]; intros H; simpl.
  - reflexivity.
  - rewrite (H x) by (left; reflexivity).
    rewrite IH by (intros y Hy; apply H; right; exact Hy). reflexivity.
Qed.





Lemma rows_of_nonempty data k : In k (parties data) -> rows_of data k <> [].
Proof.
  intros Hk E. apply parties_In in Hk. destruct Hk as [r [Hr Hrk]].
  assert (Hin : In r (rows_of data k)) by (apply rows_of_In; auto).
  rewrite E in Hin. contradiction.
Qed.















Lemma bottom_party_name_round data b :
  bottom_party_name data = Ok b ->
  redistribute_bottom_points data
  = Ok (flat_map (fun x =>
                    map (fun a => reset_current b (fill_bucket (x, a)))
                        (addends (points_frame data b) x)) data).
Proof.
  intros Hb.
  assert (Hne : data <> []).
  { apply bottom_party_name_standing in Hb. destruct Hb as [Hb _].
    apply parties_In in Hb. destruct Hb as [r [Hr _]].
    intros E. rewrite E in Hr. contradiction. }
  destruct (top_party_votes_share_spec data Hne) as [v [Hv _]].
  destruct (redistribute_bottom_points data) as [d|e] eqn:R.
  - destruct (redistribute_unfold _ _ R) as [b' [Hb' ->]].
    assert (b' = b) by congruence. subst b'. reflexivity.
  - unfold redistribute_bottom_points in R. rewrite Hb, Hv in R.
    discriminate.
Qed.

(** * The claims *)

(** ** C1: the leading share *)

(** C1, as stated, fails: after the first round of [overtaking_poll] the
    party ranked first by [current_votes] alone is A with a total of 45,
    while [top_party_votes_share] returns B's 55. *)
Lemma top_share_not_of_first_by_current :
  exists data s,
    redistribute_bottom_points overtaking_poll = Ok data
    /\ iloc_first (current_results data) = Ok s
    /\ Standing.best_party s = "A"%string
    /\ total s = Fin 45
    /\ top_party_votes_share data = Ok (Fin 55).
Proof.
  eexists. eexists.
  split; [reflexivity|].
  split; [vm_compute; reflexivity|].
  repeat split; vm_compute; reflexivity.
Qed.

(** C1 (amended). On a non-empty table [top_party_votes_share] returns the
    largest [current_votes + redistributed_votes] over the parties: the
    value is the total of some party, and no party has a greater total (a
    NaN total is returned only when every total is NaN).  The frame is
    sorted a second time, by the total, before its first row is read. *)
Theorem top_share_is_largest_total data :
  data <> [] ->
  exists v,
    top_party_votes_share data = Ok v
    /\ (exists s, In s (current_results data) /\ v = total s)
    /\ (forall s q, In s (current_results data) -> total s = Fin q ->
                    exists qv, v = Fin qv /\ q <= qv).
Proof. exact (top_party_votes_share_spec data). Qed.

Lemma top_share_is_largest_total_witness :
  three_party_round1 <> []
  /\ exists v,
       top_party_votes_share three_party_round1 = Ok v
       /\ (exists s, In s (current_results three_party_round1) /\ v = total s)
       /\ (forall s q, In s (current_results three_party_round1) ->
                       total s = Fin q -> exists qv, v = Fin qv /\ q <= qv).
Proof.
  split; [discriminate|].
  apply (top_share_is_largest_total three_party_round1). discriminate.
Defined.

(** ** C2: rows that match no destination *)

(** C2 fails on Scenario A.  Z is eliminated and its only transfer goes to
    X; the rows of Y and Z match no destination and come out of the round
    with a NaN [redistributed_votes] cell instead of their former 0. *)
Theorem unmatched_rows_become_nan :
  exists data',
    bottom_party_name scenario_A = Ok "Z"%string
    /\ points_frame scenario_A "Z" = [Points.mk "X" (Fin 20)]
    /\ map Row.redistributed_votes scenario_A = [Fin 0; Fin 0; Fin 0]
    /\ redistribute_bottom_points scenario_A = Ok data'
    /\ map Row.best_party data' = ["X"; "Y"; "Z"]%string
    /\ map Row.redistributed_votes data' = [Fin 20; NaN; NaN]
    /\ map Row.current_votes data' = [Fin 50; Fin 30; Fin 0].
Proof.
  eexists.
  split; [vm_compute; reflexivity|].
  split; [vm_compute; reflexivity|].
  split; [reflexivity|].
  split; [reflexivity|].
  repeat split; vm_compute; reflexivity.
Qed.

(** ** C3: Scenario A *)

(** C3, as stated, fails: the loop on Scenario A is not left after a first
    round in which Z is zeroed and X reaches 70. *)
Lemma scenario_A_not_one_round :
  ~ (exists data' tally x,
       while_loop 3 scenario_A 1 = Some (Exited data' 2)
       /\ eliminated "Z" data'
       /\ simulateRankBasedElection 3 scenario_A = Some (Ok tally)
       /\ In x tally /\ Tally.best_party x = "X"%string
       /\ feq (Tally.current_votes x) (Fin 70) = true).
Proof.
  intros [data' [tally [x [H _]]]]. vm_compute in H. discriminate.
Qed.

(** C3 (amended). On Scenario A the leading share is X's 50, which is not
    below 50: whatever the fuel, the loop is left before any round, nothing
    is eliminated, and the final tally is X=50, Y=30, Z=20. *)
Theorem scenario_A_runs_no_round fuel :
  top_party_votes_share scenario_A = Ok (Fin 50)
  /\ while_loop fuel scenario_A 1 = Some (Exited scenario_A 1)
  /\ simulateRankBasedElection fuel scenario_A =
     Some (Ok [ Tally.mk "X" (Fin 50) (Fin 0) (Fin 50) (Fin 50);
                Tally.mk "Y" (Fin 30) (Fin 0) (Fin 30) NaN;
                Tally.mk "Z" (Fin 20) (Fin 0) (Fin 20) NaN ]).
Proof.
  split; [vm_compute; reflexivity|].
  assert (H : while_loop fuel scenario_A 1 = Some (Exited scenario_A 1)).
  { rewrite while_loop_eq. reflexivity. }
  split; [exact H|].
  unfold simulateRankBasedElection. rewrite H. vm_compute. reflexivity.
Qed.

(** ** C4: votes before and after a round *)




(** ** C5: the number of rounds *)

(** C5. With fuel for one round per distinct [best_party] value, the loop
    is left, and it has called [redistribute_bottom_points] at most as many
    times as the input table has distinct [best_party] values. *)
Theorem elimination_loop_bound fuel data :
  (distinct_parties data <= fuel)%nat ->
  exists out,
    while_loop fuel data 1 = Some out
    /\ (rounds_run out <= distinct_parties data)%nat.
Proof.
  intros Hf.
  destruct (while_loop_terminates fuel data 1) as [out Hout]; [lia|].
  exists out. split; [exact Hout|].
  pose proof (while_loop_rounds fuel data 1 out (le_n 1) Hout). lia.
Qed.

Lemma elimination_loop_bound_witness :
  (distinct_parties three_party_poll <= 3)%nat
  /\ exists out,
       while_loop 3 three_party_poll 1 = Some out
       /\ (rounds_run out <= distinct_parties three_party_poll)%nat.
Proof.
  split; [vm_compute; apply le_n|].
  apply (elimination_loop_bound 3 three_party_poll).
  vm_compute. apply le_n.
Defined.

(** ** C6: the loop as a state machine *)

(** C6, as stated, fails: on a single party holding 40 votes the code
    leaves the loop before any round, while the machine of the
    specification (count from 0, bound by the parties with nonzero votes)
    runs one round and zeroes the party. *)
Lemma spec_machine_differs_on_lone_party :
  exists data',
    while_loop 1 lone_party 1 = Some (Exited lone_party 1)
    /\ rounds_run (Exited lone_party 1) = 0%nat
    /\ spec_loop 1 lone_party 0 = Some (Exited data' 1)
    /\ map Row.current_votes data' = [Fin 0]
    /\ map Row.current_votes lone_party = [Fin 40].
Proof.
  eexists.
  split; [vm_compute; reflexivity|].
  split; [reflexivity|].
  split; [vm_compute; reflexivity|].
  split; reflexivity.
Qed.

(** C6 (amended). The loop starts with [loop_count = 1] and applies
    [redistribute_bottom_points] exactly while the leading share is below 50
    and [loop_count] is below the number of distinct [best_party] values of
    the table, zeroed parties included, adding one to [loop_count] after
    each round.  So it is left normally with table [data'] and count [c] if
    and only if [c = k + 1] for a number [k] of rounds that the fuel covers,
    [data'] is the table after [k] rounds, the guard held before each of
    them and fails after the last. *)
Theorem loop_applies_rounds_while_guard fuel data data' c :
  while_loop fuel data 1 = Some (Exited data' c) <->
  exists k,
    c = S k /\ (k <= fuel)%nat
    /\ iter_rounds k data = Ok data'
    /\ (forall j, (j < k)%nat ->
          exists tj share,
            iter_rounds j data = Ok tj
            /\ top_party_votes_share tj = Ok share
            /\ flt share (Fin 50) = true
            /\ (S j < distinct_parties tj)%nat)
    /\ (exists share,
          top_party_votes_share data' = Ok share
          /\ (flt share (Fin 50) = false
              \/ (distinct_parties data' <= S k)%nat)).
Proof.
  split.
  - intros H. apply while_loop_sound in H.
    destruct H as [k [-> [Hk [Hit [Hg Hex]]]]].
    exists k. split; [reflexivity|]. split; [exact Hk|].
    split; [exact Hit|]. split.
    + intros j Hj. destruct (Hg j Hj) as [tj [Htj Hgj]].
      apply loop_guard_true in Hgj. destruct Hgj as [share [H1 [H2 H3]]].
      exists tj, share. auto.
    + apply loop_guard_false in Hex. exact Hex.
  - intros [k [-> [Hk [Hit [Hg Hex]]]]].
    apply (while_loop_complete k fuel data 1 data' Hk).
    split; [exact Hit|]. split.
    + intros j Hj. destruct (Hg j Hj) as [tj [share [H1 [H2 [H3 H4]]]]].
      exists tj. split; [exact H1|]. apply loop_guard_true.
      exists share. auto.
    + apply loop_guard_false. exact Hex.
Qed.

Lemma loop_applies_rounds_while_guard_witness :
  exists k,
    3%nat = S k /\ (k <= 3)%nat
    /\ iter_rounds k three_party_poll = Ok three_party_round2
    /\ (forall j, (j < k)%nat ->
          exists tj share,
            iter_rounds j three_party_poll = Ok tj
            /\ top_party_votes_share tj = Ok share
            /\ flt share (Fin 50) = true
            /\ (S j < distinct_parties tj)%nat)
    /\ (exists share,
          top_party_votes_share three_party_round2 = Ok share
          /\ (flt share (Fin 50) = false
              \/ (distinct_parties three_party_round2 <= S k)%nat)).
Proof.
  apply (proj1 (loop_applies_rounds_while_guard
                  3 three_party_poll three_party_round2 3)).
  vm_compute. reflexivity.
Defined.

(** ** C7: zeroed parties stay zeroed *)

(** C7. Let a round zero party [p], the bottom party of [data].  In the
    table reached after any number [k] of further rounds, [p] still has
    rows, each of them carries [current_votes = 0], and [p] is not the
    bottom party. *)
Theorem zeroed_party_stays_zeroed data p d1 k dk :
  bottom_party_name data = Ok p ->
  redistribute_bottom_points data = Ok d1 ->
  iter_rounds k d1 = Ok dk ->
  (exists r, In r dk /\ Row.best_party r = p)
  /\ (forall r, In r dk -> Row.best_party r = p -> Row.current_votes r = Fin 0)
  /\ bottom_party_name dk <> Ok p.
Proof.
  intros Hb Hr Hk.
  assert (He : eliminated p dk).
  { eapply iter_rounds_keeps_eliminated; [|exact Hk].
    eapply redistribute_eliminates_bottom; eauto. }
  split; [|split].
  - apply parties_In. eapply iter_rounds_parties; [exact Hk|].
    eapply redistribute_parties; [exact Hr|].
    apply bottom_party_name_standing in Hb. tauto.
  - exact He.
  - apply eliminated_not_bottom. exact He.
Qed.

Lemma zeroed_party_stays_zeroed_witness :
  bottom_party_name three_party_poll = Ok "C"%string
  /\ redistribute_bottom_points three_party_poll = Ok three_party_round1
  /\ iter_rounds 1 three_party_round1 = Ok three_party_round2
  /\ (exists r, In r three_party_round2 /\ Row.best_party r = "C"%string)
  /\ (forall r, In r three_party_round2 -> Row.best_party r = "C"%string ->
                Row.current_votes r = Fin 0)
  /\ bottom_party_name three_party_round2 <> Ok "C"%string.
Proof.
  split; [vm_compute; reflexivity|].
  split; [vm_compute; reflexivity|].
  split; [vm_compute; reflexivity|].
  apply (zeroed_party_stays_zeroed three_party_poll "C" three_party_round1 1
           three_party_round2); vm_compute; reflexivity.
Defined.

(** ** C8: the empty table *)

(** C8, as stated, fails: on the empty table the exception that leaves
    [simulateRankBasedElection] is not an [EmptyDatasetError]. *)
Lemma empty_table_not_EmptyDatasetError :
  simulateRankBasedElection 0 [] = Some (Raise IndexError)
  /\ simulateRankBasedElection 0 [] <> Some (Raise EmptyDatasetError).
Proof.
  split; [reflexivity|]. vm_compute. discriminate.
Qed.

(** C8 (amended). On a table with zero rows [simulateRankBasedElection]
    fails with the [IndexError] of the first evaluation of the loop guard,
    where [top_party_votes_share] reads row 0 of an empty frame: whatever
    the fuel, no round is run and no tally is produced. *)
Theorem empty_table_raises_IndexError fuel :
  top_party_votes_share [] = Raise IndexError
  /\ while_loop fuel [] 1 = Some (GuardRaised IndexError 1)
  /\ rounds_run (GuardRaised IndexError 1) = 0%nat
  /\ simulateRankBasedElection fuel [] = Some (Raise IndexError).
Proof.
  assert (H : while_loop fuel [] 1 = Some (GuardRaised IndexError 1))
    by (rewrite while_loop_eq; reflexivity).
  split; [reflexivity|]. split; [exact H|]. split; [reflexivity|].
  unfold simulateRankBasedElection. rewrite H. reflexivity.
Qed.

(** ** C9: bloc *)

Lemma dict_get_In d k :
  In k (map fst d) -> exists v, dict_get d k = Ok v /\ In (k, v) d.
Proof.
  induction d as [|[k' v'] d IH]; simpl; [contradiction|].
  intros H. destruct (String.eqb_spec k' k) as [->|Hne].
  - exists v'. split; [reflexivity|left; reflexivity].
  - destruct H as [H|H]; [contradiction|].
    destruct (IH H) as [v [Hv Hin]]. exists v. split; [exact Hv|right; exact Hin].
Qed.

Lemma dict_get_not_In d k :
  ~ In k (map fst d) -> dict_get d k = Raise KeyError.
Proof.
  induction d as [|[k' v'] d IH]; simpl; [reflexivity|].
  intros H. destruct (String.eqb_spec k' k) as [->|Hne].
  - exfalso. apply H. left; reflexivity.
  - apply IH. intros Hin. apply H. right; exact Hin.
Qed.

(** C9, as stated, fails: the lookup of a code outside the table is left
    to the dictionary, whose [KeyError] is what the caller gets, not an
    [UnknownPartyError]. *)
Lemma bloc_unknown_not_UnknownPartyError :
  bloc "XX" = Raise KeyError /\ bloc "XX" <> Raise UnknownPartyError.
Proof.
  split; [reflexivity|]. vm_compute. discriminate.
Qed.

(** C9 (amended). [bloc] returns a bloc label for each of the nine party
    codes of its table, "Alliansen" for "M" in particular, and raises the
    dictionary's [KeyError] for every other code. *)
Theorem bloc_total_on_codes_KeyError_outside party :
  map fst bloc_table
  = ["V"; "SD"; "M"; "C"; "L"; "KD"; "S"; "MP"; "övriga"]%string
  /\ bloc "M" = Ok "Alliansen"%string
  /\ (In party (map fst bloc_table) ->
      exists b, bloc party = Ok b /\ In (party, b) bloc_table)
  /\ (~ In party (map fst bloc_table) -> bloc party = Raise KeyError).
Proof.
  split; [reflexivity|]. split; [reflexivity|]. split.
  - apply dict_get_In.
  - apply dict_get_not_In.
Qed.

(** ** C10: eliminated parties without diehard rows *)

(** C10. Let the loop be left normally after a round [j + 1] whose bottom
    party was [p], and let no row of [p] in the input name the no-party or
    the unknown marker as [next_best_party].  Then the simulation returns a
    tally, the tally has a row for [p], and on every such row the final
    [current_votes] is NaN: the outer join leaves [p]'s [diehard_votes]
    missing, and the missing value is what [redistributed_votes] is added
    to. *)
Theorem eliminated_without_diehards_is_nan fuel data data' c j tj p :
  while_loop fuel data 1 = Some (Exited data' c) ->
  (S j < c)%nat ->
  iter_rounds j data = Ok tj ->
  bottom_party_name tj = Ok p ->
  (forall r, In r data -> Row.best_party r = p -> no_next_best r = false) ->
  exists tally,
    simulateRankBasedElection fuel data = Some (Ok tally)
    /\ (exists x, In x tally /\ Tally.best_party x = p)
    /\ (forall x, In x tally -> Tally.best_party x = p ->
                  Tally.current_votes x = NaN
                  /\ Tally.diehard_votes x = NaN).
Proof.
  intros Hloop Hj Htj Hb Hno.
  exists (final_tally data' (diehard_frame data)).
  split; [unfold simulateRankBasedElection; rewrite Hloop; reflexivity|].
  apply while_loop_sound in Hloop.
  destruct Hloop as [k [-> [_ [Hit _]]]].
  destruct (eliminated_in_run data k data' j tj p Hit) as [He Hp];
    [lia|exact Htj|exact Hb|].
  pose proof (diehard_frame_absent data p Hno) as Hd.
  destruct (final_tally_eliminated data' (diehard_frame data) p He Hp Hd)
    as [Hex Hall].
  split; [exact Hex|].
  intros x Hx Hxp. split; [apply Hall; assumption|].
  unfold final_tally in Hx. apply in_map_iff in Hx.
  destruct Hx as [z [<- Hz]]. apply in_map_iff in Hz.
  destruct Hz as [y [<- Hy]].
  assert (Hyp : Tally.best_party y = p).
  { simpl in Hxp. unfold restore_unbudged in Hxp.
    destruct (feq (Tally.current_votes y) (Fin 0)); exact Hxp. }
  destruct (merge_outer_left_only _ _ _ _ Hd Hy Hyp) as [q [_ [_ ->]]].
  unfold restore_unbudged. simpl.
  destruct (feq (Party.current_votes q) (Fin 0)); reflexivity.
Qed.

Lemma eliminated_without_diehards_is_nan_witness :
  while_loop 3 three_party_poll 1 = Some (Exited three_party_round2 3)
  /\ (2 < 3)%nat
  /\ iter_rounds 1 three_party_poll = Ok three_party_round1
  /\ bottom_party_name three_party_round1 = Ok "B"%string
  /\ forallb (fun r => negb (String.eqb (Row.best_party r) "B")
                       || negb (no_next_best r)) three_party_poll = true
  /\ exists tally,
       simulateRankBasedElection 3 three_party_poll = Some (Ok tally)
       /\ (exists x, In x tally /\ Tally.best_party x = "B"%string)
       /\ (forall x, In x tally -> Tally.best_party x = "B"%string ->
                     Tally.current_votes x = NaN
                     /\ Tally.diehard_votes x = NaN).
Proof.
  split; [vm_compute; reflexivity|].
  split; [apply le_n|].
  split; [vm_compute; reflexivity|].
  split; [vm_compute; reflexivity|].
  split; [vm_compute; reflexivity|].
  apply (eliminated_without_diehards_is_nan
           3 three_party_poll three_party_round2 3 1 three_party_round1 "B").
  - vm_compute. reflexivity.
  - apply le_n.
  - vm_compute. reflexivity.
  - vm_compute. reflexivity.
  - intros r Hr Hp.
    assert (H : forallb (fun r => negb (String.eqb (Row.best_party r) "B")
                                  || negb (no_next_best r))
                        three_party_poll = true)
      by (vm_compute; reflexivity).
    rewrite forallb_forall in H. specialize (H r Hr).
    apply String.eqb_eq in Hp. rewrite Hp in H. simpl in H.
    destruct (no_next_best r); [discriminate|reflexivity].
Defined.

(** * Further properties *)

(** ** The standings *)

Lemma insert_In {A : Type} (before : A -> A -> bool) x l y :
  In y (insert before x l) <-> y = x \/ In y l.
Proof.
  split.
  - intros H. apply (Permutation_in _ (insert_perm before x l)) in H.
    destruct H as [H|H]; auto.
  - intros H. apply (Permutation_in _ (Permutation_sym (insert_perm before x l))).
    destruct H as [H|H]; [left; auto|right; exact H].
Qed.

Lemma insert_desc_sorted {A : Type} (key : A -> float) x l :
  isna (key x) = false ->
  (forall y, In y l -> isna (key y) = false) ->
  StronglySorted (fun a b => fge (key a) (key b) = true) l ->
  StronglySorted (fun a b => fge (key a) (key b) = true)
                 (insert (fun a b => fge (key a) (key b)) x l).
Proof.
  intros Hx. induction l as [|y l IH]; intros Hfin Hs; simpl.
  - constructor; constructor.
  - apply StronglySorted_inv in Hs. destruct Hs as [Hs Hy].
    destruct (fge (key x) (key y)) eqn:E.
    + constructor; [constructor; assumption|].
      constructor; [exact E|].
      rewrite Forall_forall in *. intros z Hz.
      eapply fge_trans; [exact E|apply Hy; exact Hz].
    + constructor.
      * apply IH; [intros z Hz; apply Hfin; right; exact Hz|exact Hs].
      * rewrite Forall_forall in *. intros z Hz.
        apply insert_In in Hz. destruct Hz as [->|Hz]; [|apply Hy; exact Hz].
        apply fge_total; [exact Hx|apply Hfin; left; reflexivity|exact E].
Qed.

Lemma sort_desc_sorted {A : Type} (key : A -> float) l :
  (forall y, In y l -> isna (key y) = false) ->
  StronglySorted (fun a b => fge (key a) (key b) = true)
                 (sort (fun a b => fge (key a) (key b)) l).
Proof.
  induction l as [|x l IH]; intros Hfin; simpl.
  - constructor.
  - apply insert_desc_sorted.
    + apply Hfin. left; reflexivity.
    + intros y Hy. apply sort_In in Hy. apply Hfin. right; exact Hy.
    + apply IH. intros y Hy. apply Hfin. right; exact Hy.
Qed.

Lemma filter_sorted {A : Type} (R : A -> A -> Prop) (f : A -> bool) l :
  StronglySorted R l -> StronglySorted R (filter f l).
Proof.
  induction 1 as [|x l Hs IH Hx]; simpl; [constructor|].
  destruct (f x); [|exact IH].
  constructor; [exact IH|].
  rewrite Forall_forall in *. intros y Hy. apply filter_In in Hy.
  apply Hx. tauto.
Qed.

Lemma iloc_last_sorted {A : Type} (R : A -> A -> Prop) l y :
  StronglySorted R l -> (forall x, In x l -> R x x) ->
  iloc_last l = Ok y -> forall x, In x l -> R x y.
Proof.
  induction 1 as [|z l Hs IH Hz]; intros Hrefl Hlast x Hx; [contradiction|].
  simpl in Hlast. destruct l as [|z' l].
  - injection Hlast as <-. destruct Hx as [<-|[]]. apply Hrefl. left; reflexivity.
  - assert (Hy : In y (z' :: l)) by (apply iloc_last_In; exact Hlast).
    destruct Hx as [<-|Hx].
    + rewrite Forall_forall in Hz. apply Hz. exact Hy.
    + apply IH; auto. intros w Hw. apply Hrefl. right; exact Hw.
Qed.

Lemma iloc_last_Raise {A : Type} (l : list A) e :
  iloc_last l = Raise e <-> l = [] /\ e = IndexError.
Proof.
  split.
  - induction l as [|x l IH]; simpl.
    + intros H. injection H as <-. auto.
    + destruct l as [|y l]; [discriminate|].
      intros H. destruct (IH H) as [E _]. discriminate.
  - intros [-> ->]. reflexivity.
Qed.

Lemma standings_keys data :
  NoDup (map Standing.best_party (current_results data))
  /\ forall k, In k (map Standing.best_party (current_results data))
               <-> In k (map Row.best_party data).
Proof.
  assert (P : Permutation (map Standing.best_party (current_results data))
                          (parties data)).
  { rewrite current_results_unfold.
    eapply Permutation_trans;
      [apply Permutation_map, sort_values_desc_perm|].
    rewrite map_map. simpl. rewrite map_id. apply Permutation_refl. }
  split.
  - eapply Permutation_NoDup; [apply Permutation_sym, P|].
    apply unique_sorted_NoDup.
  - intros k. unfold parties in P.
    rewrite <- (unique_sorted_In k (map Row.best_party data)). split.
    + apply Permutation_in. exact P.
    + apply Permutation_in, Permutation_sym. exact P.
Qed.

Lemma current_results_split data :
  exists ranked unranked,
    current_results data = ranked ++ unranked
    /\ StronglySorted by_current_desc ranked
    /\ Forall (fun s => isna (Standing.current_votes s) = false) ranked
    /\ Forall (fun s => Standing.current_votes s = NaN) unranked.
Proof.
  rewrite current_results_unfold. unfold sort_values_desc.
  eexists. eexists. split; [reflexivity|].
  assert (Hfin : forall y,
            In y (filter (fun x => notna (Standing.current_votes x))
                         (map (standing_of data) (parties data))) ->
            isna (Standing.current_votes y) = false).
  { intros y Hy. apply filter_In in Hy. apply notna_isna. tauto. }
  split; [apply (sort_desc_sorted Standing.current_votes); exact Hfin|].
  split.
  - rewrite Forall_forall. intros s Hs. apply sort_In in Hs.
    apply Hfin. exact Hs.
  - rewrite Forall_forall. intros s Hs. apply filter_In in Hs.
    destruct Hs as [_ Hs]. destruct (Standing.current_votes s);
      [reflexivity|discriminate].
Qed.

(** X1. [current_results] has exactly one row per [best_party] value of the
    table, and lists first the rows with a [current_votes] value, in
    non-increasing order, then those whose [current_votes] is NaN. *)
Theorem current_results_sorted_one_row_per_party data :
  NoDup (map Standing.best_party (current_results data))
  /\ (forall k, In k (map Standing.best_party (current_results data))
                <-> In k (map Row.best_party data))
  /\ exists ranked unranked,
       current_results data = ranked ++ unranked
       /\ StronglySorted by_current_desc ranked
       /\ Forall (fun s => isna (Standing.current_votes s) = false) ranked
       /\ Forall (fun s => Standing.current_votes s = NaN) unranked.
Proof.
  destruct (standings_keys data) as [H1 H2].
  split; [exact H1|]. split; [exact H2|].
  apply current_results_split.
Qed.

(** The maximum kept by [agg_max]. *)
Lemma fold_fmax2_spec l :
  forall acc,
    (fold_left fmax2 l acc = NaN /\ acc = NaN /\ forall x, In x l -> x = NaN)
    \/ (exists q, fold_left fmax2 l acc = Fin q
                  /\ (acc = Fin q \/ In (Fin q) l)
                  /\ (forall q', acc = Fin q' \/ In (Fin q') l -> q' <= q)).
Proof.
  induction l as [|x l IH]; intros acc; simpl.
  - destruct acc as [|a].
    + left. repeat split. intros x [].
    + right. exists a. split; [reflexivity|]. split; [left; reflexivity|].
      intros q' [H|[]]. injection H as <-. apply Qle_refl.
  - destruct (IH (fmax2 acc x)) as [[Hm [Ha Hl]]|[q [Hm [Hin Hle]]]].
    + left. split; [exact Hm|].
      destruct acc as [|a], x as [|b]; simpl in Ha; try discriminate.
      * split; [reflexivity|]. intros y [<-|Hy]; [reflexivity|apply Hl; exact Hy].
      * destruct (Qle_bool a b); discriminate.
    + right. exists q. split; [exact Hm|]. split.
      * destruct Hin as [Hin|Hin]; [|right; right; exact Hin].
        destruct acc as [|a], x as [|b]; simpl in Hin; try discriminate.
        -- right; left. exact Hin.
        -- left. exact Hin.
        -- destruct (Qle_bool a b); [right; left|left]; exact Hin.
      * intros q' Hq'.
        assert (Hmax : forall v, fmax2 acc x = Fin v -> v <= q)
          by (intros v Hv; apply Hle; left; exact Hv).
        destruct Hq' as [Hq'|[Hq'|Hq']].
        -- subst acc. destruct x as [|b]; simpl in Hmax.
           ++ apply Hmax. reflexivity.
           ++ destruct (Qle_bool q' b) eqn:E.
              ** apply Qle_bool_iff in E. eapply Qle_trans; [exact E|].
                 apply Hmax. reflexivity.
              ** apply Hmax. reflexivity.
        -- subst x. destruct acc as [|a]; simpl in Hmax.
           ++ apply Hmax. reflexivity.
           ++ destruct (Qle_bool a q') eqn:E.
              ** apply Hmax. reflexivity.
              ** assert (Hlt : q' <= a).
                 { destruct (Qlt_le_dec q' a) as [Hlt|Hge].
                   - apply Qlt_le_weak. exact Hlt.
                   - apply Qle_bool_iff in Hge. congruence. }
                 eapply Qle_trans; [exact Hlt|]. apply Hmax. reflexivity.
        -- apply Hle. right. exact Hq'.
Qed.

Lemma agg_max_spec l : skipna_max l (agg_max l).
Proof.
  unfold agg_max, skipna_max.
  destruct (fold_fmax2_spec l NaN) as [[Hm [_ Hl]]|[q [Hm [Hin Hle]]]].
  - left. auto.
  - right. exists q. split; [exact Hm|]. split.
    + rewrite Hm. destruct Hin as [Hin|Hin]; [discriminate|exact Hin].
    + intros q' Hq'. apply Hle. right. exact Hq'.
Qed.

(** X2. Each row of [current_results] carries, for its party, the maximum
    of [current_votes] and the maximum of [redistributed_votes] over the
    rows of that party in the table, NaN cells skipped; the party has at
    least one row. *)
Theorem standings_are_row_maxima data s :
  In s (current_results data) ->
  rows_of data (Standing.best_party s) <> []
  /\ skipna_max (map Row.current_votes (rows_of data (Standing.best_party s)))
                (Standing.current_votes s)
  /\ skipna_max (map Row.redistributed_votes
                     (rows_of data (Standing.best_party s)))
                (Standing.redistributed_votes s).
Proof.
  intros Hs. apply current_results_In in Hs. destruct Hs as [k [Hk ->]].
  simpl. split; [apply rows_of_nonempty; exact Hk|].
  split; apply agg_max_spec.
Qed.

Lemma standings_are_row_maxima_witness :
  In (Standing.mk "A" (Fin 40) (Fin (25 # 5)))
     (current_results three_party_round1)
  /\ rows_of three_party_round1 "A" <> []
  /\ skipna_max (map Row.current_votes (rows_of three_party_round1 "A"))
                (Fin 40)
  /\ skipna_max (map Row.redistributed_votes (rows_of three_party_round1 "A"))
                (Fin (25 # 5)).
Proof.
  split; [vm_compute; left; reflexivity|].
  apply (standings_are_row_maxima three_party_round1
           (Standing.mk "A" (Fin 40) (Fin (25 # 5)))).
  vm_compute. left. reflexivity.
Defined.

(** ** The bottom party and the failures of the queries *)

Lemma iloc_last_map {A B : Type} (f : A -> B) l b :
  iloc_last (map f l) = Ok b -> exists s, iloc_last l = Ok s /\ f s = b.
Proof.
  induction l as [|x l IH]; simpl; [discriminate|].
  destruct l as [|y l]; simpl in *.
  - intros H. injection H as <-. exists x. auto.
  - exact IH.
Qed.

Lemma finite_current_standing data k :
  finite_current data = true -> In k (parties data) ->
  isna (Standing.current_votes (standing_of data k)) = false.
Proof.
  intros Hfin Hk. simpl. apply agg_max_finite.
  - intros E. apply map_eq_nil in E. eapply rows_of_nonempty; eauto.
  - intros x Hx. apply in_map_iff in Hx. destruct Hx as [r [<- Hr]].
    apply rows_of_In in Hr. destruct Hr as [Hr _].
    unfold finite_current in Hfin. rewrite forallb_forall in Hfin.
    apply notna_isna. apply Hfin. exact Hr.
Qed.

Lemma bottom_party_minimal data b :
  finite_current data = true ->
  bottom_party_name data = Ok b ->
  In b (map Row.best_party data)
  /\ fne (Standing.current_votes (standing_of data b)) (Fin 0) = true
  /\ forall k,
       In k (map Row.best_party data) ->
       fne (Standing.current_votes (standing_of data k)) (Fin 0) = true ->
       fge (Standing.current_votes (standing_of data k))
           (Standing.current_votes (standing_of data b)) = true.
Proof.
  intros Hfin Hb.
  destruct (bottom_party_name_standing data b Hb) as [HbK Hbne].
  split; [apply unique_sorted_In; exact HbK|]. split; [exact Hbne|].
  intros k Hk Hkne.
  apply (proj2 (unique_sorted_In k (map Row.best_party data))) in Hk.
  unfold bottom_party_name in Hb. apply iloc_last_map in Hb.
  destruct Hb as [s [Hs Hsb]].
  destruct (current_results_split data) as [ranked [unranked [E [Hsort [Hr Hu]]]]].
  assert (Hall : forall x, In x (current_results data) ->
                   isna (Standing.current_votes x) = false).
  { intros x Hx. apply current_results_In in Hx. destruct Hx as [k' [Hk' ->]].
    apply finite_current_standing; assumption. }
  assert (Hun : unranked = []).
  { destruct unranked as [|u unranked]; [reflexivity|]. exfalso.
    assert (Hin : In u (current_results data))
      by (rewrite E; apply in_or_app; right; left; reflexivity).
    apply Hall in Hin. rewrite Forall_forall in Hu.
    rewrite (Hu u) in Hin by (left; reflexivity). discriminate. }
  subst unranked. rewrite app_nil_r in E.
  assert (Hin_s : In s (current_results data)).
  { apply iloc_last_In in Hs. apply filter_In in Hs. tauto. }
  assert (Es : s = standing_of data b).
  { apply current_results_In in Hin_s. destruct Hin_s as [k' [_ ->]].
    simpl in Hsb. subst k'. reflexivity. }
  subst s.
  apply (iloc_last_sorted by_current_desc
           (filter (fun s => fne (Standing.current_votes s) (Fin 0))
                   (current_results data))).
  - apply filter_sorted. rewrite E. exact Hsort.
  - intros x Hx. apply filter_In in Hx. destruct Hx as [Hx _].
    apply fge_refl. apply Hall. exact Hx.
  - exact Hs.
  - apply filter_In. split; [|exact Hkne].
    apply current_results_In. exists k. auto.
Qed.

(** X3. On a table without NaN in [current_votes], the party returned by
    [bottom_party_name] is a party of the table whose [current_votes] is
    not 0 and is the least among the parties whose [current_votes] is not
    0. *)
Theorem bottom_party_has_least_nonzero_votes data b :
  finite_current data = true ->
  bottom_party_name data = Ok b ->
  In b (map Row.best_party data)
  /\ fne (Standing.current_votes (standing_of data b)) (Fin 0) = true
  /\ forall k,
       In k (map Row.best_party data) ->
       fne (Standing.current_votes (standing_of data k)) (Fin 0) = true ->
       fge (Standing.current_votes (standing_of data k))
           (Standing.current_votes (standing_of data b)) = true.
Proof. exact (bottom_party_minimal data b). Qed.

Lemma bottom_party_has_least_nonzero_votes_witness :
  finite_current three_party_round1 = true
  /\ bottom_party_name three_party_round1 = Ok "B"%string
  /\ In "B"%string (map Row.best_party three_party_round1)
  /\ fne (Standing.current_votes (standing_of three_party_round1 "B")) (Fin 0)
     = true
  /\ forall k,
       In k (map Row.best_party three_party_round1) ->
       fne (Standing.current_votes (standing_of three_party_round1 k)) (Fin 0)
       = true ->
       fge (Standing.current_votes (standing_of three_party_round1 k))
           (Standing.current_votes (standing_of three_party_round1 "B")) = true.
Proof.
  split; [vm_compute; reflexivity|].
  split; [vm_compute; reflexivity|].
  apply (bottom_party_has_least_nonzero_votes three_party_round1 "B");
    vm_compute; reflexivity.
Defined.

Lemma bottom_party_name_Raise data e :
  bottom_party_name data = Raise e <->
  e = IndexError
  /\ forall s, In s (current_results data) ->
               feq (Standing.current_votes s) (Fin 0) = true.
Proof.
  unfold bottom_party_name. rewrite iloc_last_Raise. split.
  - intros [E ->]. split; [reflexivity|]. intros s Hs.
    apply map_eq_nil in E.
    destruct (feq (Standing.current_votes s) (Fin 0)) eqn:F; [reflexivity|].
    exfalso.
    assert (Hin : In s (filter (fun s => fne (Standing.current_votes s) (Fin 0))
                               (current_results data))).
    { apply filter_In. split; [exact Hs|]. unfold fne. rewrite F. reflexivity. }
    rewrite E in Hin. contradiction.
  - intros [-> H]. split; [|reflexivity].
    destruct (filter _ (current_results data)) as [|s l] eqn:E; [reflexivity|].
    exfalso.
    assert (Hin : In s (filter (fun s => fne (Standing.current_votes s) (Fin 0))
                               (current_results data)))
      by (rewrite E; left; reflexivity).
    apply filter_In in Hin. destruct Hin as [Hin Hne].
    unfold fne in Hne. rewrite (H s Hin) in Hne. discriminate.
Qed.

(** X4. [bottom_party_name] fails exactly when no party is left with a
    nonzero [current_votes] (every standing is 0, or the table is empty),
    and the failure is the [IndexError] of reading the last row of an empty
    frame. *)
Theorem bottom_party_name_fails_iff_all_zero data e :
  bottom_party_name data = Raise e <->
  e = IndexError
  /\ forall s, In s (current_results data) ->
               feq (Standing.current_votes s) (Fin 0) = true.
Proof. exact (bottom_party_name_Raise data e). Qed.

Lemma top_party_votes_share_Raise data e :
  top_party_votes_share data = Raise e <-> data = [] /\ e = IndexError.
Proof.
  split.
  - intros H. destruct data as [|r data].
    + vm_compute in H. injection H as <-. auto.
    + destruct (top_party_votes_share_spec (r :: data)) as [v [Hv _]];
        [discriminate|]. rewrite Hv in H. discriminate.
  - intros [-> ->]. reflexivity.
Qed.

Lemma redistribute_Raise data e :
  redistribute_bottom_points data = Raise e <->
  bottom_party_name data = Raise e.
Proof.
  destruct (bottom_party_name data) as [b|e'] eqn:Hb.
  - rewrite (bottom_party_name_round data b Hb). split; discriminate.
  - unfold redistribute_bottom_points. rewrite Hb. simpl.
    split; intros H; injection H as <-; reflexivity.
Qed.

(** X5. One round fails exactly when no party is left with a nonzero
    [current_votes] (empty table included), with an [IndexError]; on every
    other table it returns a table. *)
Theorem redistribute_fails_iff_all_zero data :
  (forall e,
     redistribute_bottom_points data = Raise e <->
     e = IndexError
     /\ forall s, In s (current_results data) ->
                  feq (Standing.current_votes s) (Fin 0) = true)
  /\ ((exists s, In s (current_results data)
                 /\ fne (Standing.current_votes s) (Fin 0) = true)
      <-> exists data', redistribute_bottom_points data = Ok data').
Proof.
  split.
  - intros e. rewrite redistribute_Raise. apply bottom_party_name_Raise.
  - split.
    + intros [s [Hs Hne]].
      destruct (redistribute_bottom_points data) as [d|e] eqn:R; [eauto|].
      exfalso. apply redistribute_Raise, bottom_party_name_Raise in R.
      destruct R as [_ R]. unfold fne in Hne. rewrite (R s Hs) in Hne.
      discriminate.
    + intros [data' R].
      destruct (redistribute_unfold _ _ R) as [b [Hb _]].
      apply bottom_party_name_standing in Hb. destruct Hb as [HbK Hne].
      exists (standing_of data b). split; [|exact Hne].
      apply current_results_In. exists b. auto.
Qed.

(** X6. [top_party_votes_share] fails exactly on the empty table, with the
    [IndexError] of reading row 0 of an empty frame. *)
Theorem top_party_votes_share_fails_iff_empty data e :
  top_party_votes_share data = Raise e <-> data = [] /\ e = IndexError.
Proof. exact (top_party_votes_share_Raise data e). Qed.

(** ** What one round does to the table *)

Lemma addends_spec points x a :
  In a (addends points x) <->
  (a = NaN /\ forall p, In p points ->
                        Points.best_party p <> Row.best_party x)
  \/ (exists p, In p points /\ Points.best_party p = Row.best_party x
                /\ a = Points.points_to_redistribute p).
Proof.
  unfold addends.
  destruct (filter (fun p => String.eqb (Points.best_party p) (Row.best_party x))
                   points) as [|m ms] eqn:E.
  - split.
    + intros [<-|[]]. left. split; [reflexivity|]. intros p Hp Hk.
      assert (Hin : In p (filter (fun p => String.eqb (Points.best_party p)
                                                      (Row.best_party x)) points))
        by (apply filter_In; split; [exact Hp|apply String.eqb_eq; exact Hk]).
      rewrite E in Hin. contradiction.
    + intros [[-> _]|[p [Hp [Hk _]]]]; [left; reflexivity|].
      exfalso.
      assert (Hin : In p (filter (fun p => String.eqb (Points.best_party p)
                                                      (Row.best_party x)) points))
        by (apply filter_In; split; [exact Hp|apply String.eqb_eq; exact Hk]).
      rewrite E in Hin. contradiction.
  - rewrite <- E. rewrite in_map_iff. split.
    + intros [p [<- Hp]]. apply filter_In in Hp. destruct Hp as [Hp Hk].
      apply String.eqb_eq in Hk. right. exists p. auto.
    + intros [[_ Hno]|[p [Hp [Hk ->]]]].
      * exfalso. apply (Hno m).
        -- assert (Hin : In m (m :: ms)) by (left; reflexivity).
           rewrite <- E in Hin. apply filter_In in Hin. tauto.
        -- assert (Hin : In m (m :: ms)) by (left; reflexivity).
           rewrite <- E in Hin. apply filter_In in Hin.
           apply String.eqb_eq. tauto.
      * exists p. split; [reflexivity|]. apply filter_In.
        split; [exact Hp|apply String.eqb_eq; exact Hk].
Qed.

Lemma points_frame_In data b p :
  In p (points_frame data b) <->
  exists y, In y data /\ Row.best_party y = b
            /\ p = Points.mk (Row.next_best_party y)
                     (fmul (Row.initial_votes y) (Row.redistribution_share y)).
Proof.
  unfold points_frame. rewrite in_map_iff. split.
  - intros [y [<- Hy]]. apply filter_In in Hy. destruct Hy as [Hy Hb].
    apply String.eqb_eq in Hb. exists y. auto.
  - intros [y [Hy [Hb ->]]]. exists y. split; [reflexivity|].
    apply filter_In. split; [exact Hy|apply String.eqb_eq; exact Hb].
Qed.

Lemma round_rows data b data' :
  bottom_party_name data = Ok b ->
  redistribute_bottom_points data = Ok data' ->
  forall r',
    In r' data' <->
    exists x,
      In x data
      /\ Row.best_party r' = Row.best_party x
      /\ Row.next_best_party r' = Row.next_best_party x
      /\ Row.redistribution_share r' = Row.redistribution_share x
      /\ Row.initial_votes r' = Row.initial_votes x
      /\ Row.current_votes r'
         = (if String.eqb (Row.best_party x) b then Fin 0
            else Row.current_votes x)
      /\ ((Row.redistributed_votes r' = NaN
           /\ forall y, In y data -> Row.best_party y = b ->
                        Row.next_best_party y <> Row.best_party x)
          \/ (exists y,
                In y data /\ Row.best_party y = b
                /\ Row.next_best_party y = Row.best_party x
                /\ Row.redistributed_votes r'
                   = fadd (Row.redistributed_votes x)
                          (fmul (Row.initial_votes y)
                                (Row.redistribution_share y)))).
Proof.
  intros Hb R r'. destruct (redistribute_unfold _ _ R) as [b' [Hb' Hd]].
  assert (b' = b) by congruence. subst b'.
  rewrite (redistribute_In _ _ _ Hd r'). split.
  - intros [x [a [Hx [Ha ->]]]]. exists x. split; [exact Hx|].
    assert (Hred : Row.redistributed_votes (reset_current b (fill_bucket (x, a)))
                   = fadd (Row.redistributed_votes x) a).
    { unfold reset_current. simpl.
      destruct (String.eqb (Row.best_party x) b); reflexivity. }
    rewrite Hred.
    assert (Hcols :
              Row.best_party (reset_current b (fill_bucket (x, a)))
              = Row.best_party x
              /\ Row.next_best_party (reset_current b (fill_bucket (x, a)))
                 = Row.next_best_party x
              /\ Row.redistribution_share (reset_current b (fill_bucket (x, a)))
                 = Row.redistribution_share x
              /\ Row.initial_votes (reset_current b (fill_bucket (x, a)))
                 = Row.initial_votes x
              /\ Row.current_votes (reset_current b (fill_bucket (x, a)))
                 = (if String.eqb (Row.best_party x) b then Fin 0
                    else Row.current_votes x)).
    { unfold reset_current. simpl.
      destruct (String.eqb (Row.best_party x) b); simpl; auto. }
    destruct Hcols as [E1 [E2 [E3 [E4 E5]]]].
    split; [exact E1|]. split; [exact E2|]. split; [exact E3|].
    split; [exact E4|]. split; [exact E5|].
    apply addends_spec in Ha. destruct Ha as [[-> Hno]|[p [Hp [Hk ->]]]].
    + left. split; [destruct (Row.redistributed_votes x); reflexivity|].
      intros y Hy Hyb Hn. apply (Hno (Points.mk (Row.next_best_party y)
                                        (fmul (Row.initial_votes y)
                                              (Row.redistribution_share y)))).
      * apply points_frame_In. exists y. auto.
      * exact Hn.
    + apply points_frame_In in Hp. destruct Hp as [y [Hy [Hyb ->]]].
      right. exists y. simpl in Hk. auto.
  - intros [x [Hx [H1 [H2 [H3 [H4 [H5 H6]]]]]]].
    assert (Ha : exists a, In a (addends (points_frame data b) x)
                           /\ Row.redistributed_votes r'
                              = fadd (Row.redistributed_votes x) a).
    { destruct H6 as [[Hn Hno]|[y [Hy [Hyb [Hyn Hr]]]]].
      - exists NaN. split.
        + apply addends_spec. left. split; [reflexivity|].
          intros p Hp Hk. apply points_frame_In in Hp.
          destruct Hp as [y [Hy [Hyb ->]]]. apply (Hno y Hy Hyb). exact Hk.
        + rewrite Hn. destruct (Row.redistributed_votes x); reflexivity.
      - exists (fmul (Row.initial_votes y) (Row.redistribution_share y)).
        split; [|exact Hr]. apply addends_spec. right.
        exists (Points.mk (Row.next_best_party y)
                  (fmul (Row.initial_votes y) (Row.redistribution_share y))).
        split; [apply points_frame_In; exists y; auto|]. auto. }
    destruct Ha as [a [Ha Hr]]. exists x, a.
    split; [exact Hx|]. split; [exact Ha|].
    destruct r' as [bp cv nb sh iv rv]. simpl in *. subst.
    unfold reset_current. simpl.
    destruct (String.eqb (Row.best_party x) b); reflexivity.
Qed.

(** X7. What a round returns, row by row.  The rows of the new table are
    exactly the rows obtained from a row [x] of the old one by keeping
    [best_party], [next_best_party], [redistribution_share] and
    [initial_votes], writing 0 to [current_votes] when [x] belongs to the
    bottom party and keeping it otherwise, and replacing
    [redistributed_votes] by NaN when no row of the bottom party names
    [x]'s party as next best, else by the old value plus
    [initial_votes * redistribution_share] of a bottom-party row that does. *)
Theorem round_rewrites_each_row data b data' :
  bottom_party_name data = Ok b ->
  redistribute_bottom_points data = Ok data' ->
  forall r',
    In r' data' <->
    exists x,
      In x data
      /\ Row.best_party r' = Row.best_party x
      /\ Row.next_best_party r' = Row.next_best_party x
      /\ Row.redistribution_share r' = Row.redistribution_share x
      /\ Row.initial_votes r' = Row.initial_votes x
      /\ Row.current_votes r'
         = (if String.eqb (Row.best_party x) b then Fin 0
            else Row.current_votes x)
      /\ ((Row.redistributed_votes r' = NaN
           /\ forall y, In y data -> Row.best_party y = b ->
                        Row.next_best_party y <> Row.best_party x)
          \/ (exists y,
                In y data /\ Row.best_party y = b
                /\ Row.next_best_party y = Row.best_party x
                /\ Row.redistributed_votes r'
                   = fadd (Row.redistributed_votes x)
                          (fmul (Row.initial_votes y)
                                (Row.redistribution_share y)))).
Proof. exact (round_rows data b data'). Qed.

Lemma round_rewrites_each_row_witness :
  bottom_party_name three_party_poll = Ok "C"%string
  /\ redistribute_bottom_points three_party_poll = Ok three_party_round1
  /\ forall r',
       In r' three_party_round1 <->
       exists x,
         In x three_party_poll
         /\ Row.best_party r' = Row.best_party x
         /\ Row.next_best_party r' = Row.next_best_party x
         /\ Row.redistribution_share r' = Row.redistribution_share x
         /\ Row.initial_votes r' = Row.initial_votes x
         /\ Row.current_votes r'
            = (if String.eqb (Row.best_party x) "C" then Fin 0
               else Row.current_votes x)
         /\ ((Row.redistributed_votes r' = NaN
              /\ forall y, In y three_party_poll -> Row.best_party y = "C"%string ->
                           Row.next_best_party y <> Row.best_party x)
             \/ (exists y,
                   In y three_party_poll /\ Row.best_party y = "C"%string
                   /\ Row.next_best_party y = Row.best_party x
                   /\ Row.redistributed_votes r'
                      = fadd (Row.redistributed_votes x)
                             (fmul (Row.initial_votes y)
                                   (Row.redistribution_share y)))).
Proof.
  split; [vm_compute; reflexivity|].
  split; [vm_compute; reflexivity|].
  apply (round_rewrites_each_row three_party_poll "C" three_party_round1);
    vm_compute; reflexivity.
Defined.

(** ** A round keeps the parties *)

Lemma map_flat_map {A B C : Type} (f : B -> C) (g : A -> list B) l :
  map f (flat_map g l) = flat_map (fun x => map f (g x)) l.
Proof.
  induction l as [|x l IH]; simpl; [reflexivity|].
  rewrite map_app, IH. reflexivity.
Qed.

Lemma in_flat_repeat {A : Type} (key : A -> string) (n : A -> nat) l z :
  (forall x, In x l -> (1 <= n x)%nat) ->
  In z (flat_map (fun x => repeat (key x) (n x)) l) <-> In z (map key l).
Proof.
  intros Hn. rewrite in_flat_map, in_map_iff. split.
  - intros [x [Hx Hz]]. apply repeat_spec in Hz. exists x. auto.
  - intros [x [<- Hx]]. exists x. split; [exact Hx|].
    specialize (Hn x Hx). destruct (n x) as [|m]; [lia|]. left; reflexivity.
Qed.

Lemma nodup_repeat_app k m (rest rest' : list string) :
  (forall z, In z rest' <-> In z rest) ->
  nodup string_dec rest' = nodup string_dec rest ->
  nodup string_dec (repeat k (S m) ++ rest') = nodup string_dec (k :: rest).
Proof.
  intros Hin Hnd. induction m as [|m IH].
  - simpl. destruct (in_dec string_dec k rest') as [H|H],
             (in_dec string_dec k rest) as [H'|H'].
    + exact Hnd.
    + exfalso. apply H', Hin, H.
    + exfalso. apply H, Hin, H'.
    + rewrite Hnd. reflexivity.
  - change (repeat k (S (S m)) ++ rest') with (k :: (repeat k (S m) ++ rest')).
    rewrite <- IH.
    change (nodup string_dec (k :: (repeat k (S m) ++ rest')))
      with (if in_dec string_dec k (repeat k (S m) ++ rest')
            then nodup string_dec (repeat k (S m) ++ rest')
            else k :: nodup string_dec (repeat k (S m) ++ rest')).
    destruct (in_dec string_dec k (repeat k (S m) ++ rest')) as [H|H];
      [reflexivity|].
    exfalso. apply H. left. reflexivity.
Qed.

Lemma nodup_flat_repeat {A : Type} (key : A -> string) (n : A -> nat) l :
  (forall x, In x l -> (1 <= n x)%nat) ->
  nodup string_dec (flat_map (fun x => repeat (key x) (n x)) l)
  = nodup string_dec (map key l).
Proof.
  induction l as [|x l IH]; intros Hn; [reflexivity|].
  assert (Hn' : forall y, In y l -> (1 <= n y)%nat)
    by (intros y Hy; apply Hn; right; exact Hy).
  simpl flat_map. simpl map.
  assert (Hx : (1 <= n x)%nat) by (apply Hn; left; reflexivity).
  destruct (n x) as [|m]; [lia|].
  apply nodup_repeat_app.
  - intros z. apply in_flat_repeat. exact Hn'.
  - apply IH. exact Hn'.
Qed.

Lemma addends_length points x : (1 <= List.length (addends points x))%nat.
Proof.
  pose proof (addends_nonempty points x) as H.
  destruct (addends points x); [congruence|simpl; lia].
Qed.

Lemma round_best_party_column data data' :
  redistribute_bottom_points data = Ok data' ->
  exists n : Row.t -> nat,
    (forall x, (1 <= n x)%nat)
    /\ map Row.best_party data'
       = flat_map (fun x => repeat (Row.best_party x) (n x)) data.
Proof.
  intros R. destruct (redistribute_unfold _ _ R) as [b [_ ->]].
  exists (fun x => List.length (addends (points_frame data b) x)).
  split; [intros x; apply addends_length|].
  rewrite map_flat_map. apply flat_map_ext. intros x.
  rewrite map_map.
  rewrite (map_ext _ (fun _ => Row.best_party x))
    by (intros a; rewrite reset_current_best_party; reflexivity).
  apply map_const.
Qed.

Lemma round_parties data data' :
  redistribute_bottom_points data = Ok data' ->
  parties data' = parties data.
Proof.
  intros R. destruct (round_best_party_column data data' R) as [n [Hn E]].
  unfold parties, unique_sorted. rewrite E.
  rewrite nodup_flat_repeat by (intros x _; apply Hn). reflexivity.
Qed.

Lemma round_length data data' :
  redistribute_bottom_points data = Ok data' ->
  (List.length data <= List.length data')%nat.
Proof.
  intros R. destruct (round_best_party_column data data' R) as [n [Hn E]].
  rewrite <- (length_map Row.best_party data'), E.
  clear E R. induction data as [|x data IH]; simpl; [lia|].
  rewrite length_app, repeat_length. specialize (Hn x). lia.
Qed.

(** ** Standings after a round *)

Lemma filter_flat_map {A B : Type} (p : B -> bool) (q : A -> bool)
      (g : A -> list B) l :
  (forall x y, In y (g x) -> p y = q x) ->
  filter p (flat_map g l) = flat_map g (filter q l).
Proof.
  intros H. induction l as [|x l IH]; simpl; [reflexivity|].
  rewrite filter_app, IH.
  assert (E : filter p (g x) = if q x then g x else []).
  { specialize (H x). induction (g x) as [|y ys IHy]; simpl.
    - destruct (q x); reflexivity.
    - rewrite (H y) by (left; reflexivity).
      rewrite IHy by (intros z Hz; apply H; right; exact Hz).
      destruct (q x); reflexivity. }
  rewrite E. destruct (q x); reflexivity.
Qed.

Lemma fmax2_idem acc v : fmax2 (fmax2 acc v) v = fmax2 acc v.
Proof.
  destruct acc as [|a], v as [|b]; simpl; try reflexivity.
  - assert (E : Qle_bool b b = true) by (apply Qle_bool_iff, Qle_refl).
    rewrite E. reflexivity.
  - destruct (Qle_bool a b) eqn:E; simpl.
    + assert (E' : Qle_bool b b = true) by (apply Qle_bool_iff, Qle_refl).
      rewrite E'. reflexivity.
    + rewrite E. reflexivity.
Qed.

Lemma fold_fmax2_repeat v n :
  forall acc, fold_left fmax2 (repeat v (S n)) acc = fmax2 acc v.
Proof.
  induction n as [|n IH]; intros acc; [reflexivity|].
  change (fold_left fmax2 (repeat v (S (S n))) acc)
    with (fold_left fmax2 (repeat v (S n)) (fmax2 acc v)).
  rewrite IH. apply fmax2_idem.
Qed.

Lemma agg_max_flat_repeat {A : Type} (f : A -> float) (n : A -> nat) l :
  (forall x, (1 <= n x)%nat) ->
  agg_max (flat_map (fun x => repeat (f x) (n x)) l) = agg_max (map f l).
Proof.
  intros Hn. unfold agg_max. generalize NaN.
  induction l as [|x l IH]; intros acc; simpl; [reflexivity|].
  rewrite fold_left_app. specialize (Hn x).
  destruct (n x) as [|m]; [lia|].
  rewrite fold_fmax2_repeat. apply IH.
Qed.

Lemma round_standing_current data b data' k :
  bottom_party_name data = Ok b ->
  redistribute_bottom_points data = Ok data' ->
  In k (parties data) ->
  Standing.current_votes (standing_of data' k)
  = if String.eqb k b then Fin 0
    else Standing.current_votes (standing_of data k).
Proof.
  intros Hb R Hk. destruct (redistribute_unfold _ _ R) as [b' [Hb' Hd]].
  assert (b' = b) by congruence. subst b'.
  simpl. unfold rows_of at 1. rewrite Hd.
  rewrite (filter_flat_map _ (fun x => String.eqb (Row.best_party x) k)).
  2:{ intros x y Hy. apply in_map_iff in Hy. destruct Hy as [a [<- _]].
      rewrite reset_current_best_party. reflexivity. }
  rewrite map_flat_map.
  rewrite (flat_map_ext _
             (fun x => repeat (if String.eqb (Row.best_party x) b then Fin 0
                               else Row.current_votes x)
                              (List.length (addends (points_frame data b) x)))).
  2:{ intros x. rewrite map_map.
      rewrite (map_ext _ (fun _ => if String.eqb (Row.best_party x) b
                                   then Fin 0 else Row.current_votes x)).
      - apply map_const.
      - intros a. rewrite reset_current_votes. reflexivity. }
  rewrite (agg_max_flat_repeat _ _ _ (fun x => addends_length _ x)).
  fold (rows_of data k).
  destruct (String.eqb k b) eqn:Ekb.
  - apply agg_max_zeros.
    + intros E. apply map_eq_nil in E. eapply rows_of_nonempty; eauto.
    + intros v Hv. apply in_map_iff in Hv. destruct Hv as [x [<- Hx]].
      apply rows_of_In in Hx. destruct Hx as [_ Hx]. rewrite Hx, Ekb.
      reflexivity.
  - f_equal. apply map_ext_in. intros x Hx.
    apply rows_of_In in Hx. destruct Hx as [_ Hx]. rewrite Hx, Ekb.
    reflexivity.
Qed.

(** X8. A round keeps the parties and loses no row: the new table has the
    same distinct [best_party] values, in the same [groupby] order, and at
    least as many rows; in the standings it changes [current_votes] for the
    bottom party only, which it sets to 0. *)
Theorem round_keeps_parties_and_zeroes_bottom data b data' :
  bottom_party_name data = Ok b ->
  redistribute_bottom_points data = Ok data' ->
  parties data' = parties data
  /\ (List.length data <= List.length data')%nat
  /\ List.length (current_results data') = List.length (current_results data)
  /\ forall k,
       In k (parties data) ->
       Standing.current_votes (standing_of data' k)
       = if String.eqb k b then Fin 0
         else Standing.current_votes (standing_of data k).
Proof.
  intros Hb R. split; [exact (round_parties data data' R)|].
  split; [exact (round_length data data' R)|].
  split.
  - rewrite !current_results_distinct.
    exact (redistribute_distinct_parties data data' R).
  - intros k Hk. apply round_standing_current; assumption.
Qed.

Lemma round_keeps_parties_and_zeroes_bottom_witness :
  bottom_party_name three_party_poll = Ok "C"%string
  /\ redistribute_bottom_points three_party_poll = Ok three_party_round1
  /\ parties three_party_round1 = parties three_party_poll
  /\ (List.length three_party_poll <= List.length three_party_round1)%nat
  /\ List.length (current_results three_party_round1)
     = List.length (current_results three_party_poll)
  /\ forall k,
       In k (parties three_party_poll) ->
       Standing.current_votes (standing_of three_party_round1 k)
       = if String.eqb k "C" then Fin 0
         else Standing.current_votes (standing_of three_party_poll k).
Proof.
  split; [vm_compute; reflexivity|].
  split; [vm_compute; reflexivity|].
  apply (round_keeps_parties_and_zeroes_bottom
           three_party_poll "C" three_party_round1);
    vm_compute; reflexivity.
Defined.

(** ** The loop on tables where every party has votes *)

Lemma filter_length_perm {A : Type} (p : A -> bool) l l' :
  Permutation l l' ->
  List.length (filter p l) = List.length (filter p l').
Proof.
  induction 1 as [|x l l' _ IH|x y l|l l' l'' _ IH1 _ IH2]; simpl.
  - reflexivity.
  - destruct (p x); simpl; rewrite IH; reflexivity.
  - destruct (p x), (p y); reflexivity.
  - rewrite IH1. exact IH2.
Qed.

Lemma filter_map_swap {A B : Type} (p : B -> bool) (f : A -> B) l :
  filter p (map f l) = map f (filter (fun x => p (f x)) l).
Proof.
  induction l as [|x l IH]; simpl; [reflexivity|].
  destruct (p (f x)); simpl; rewrite IH; reflexivity.
Qed.

Lemma nonzero_parties_live data :
  nonzero_parties data = List.length (live_parties data).
Proof.
  unfold nonzero_parties, live_parties.
  rewrite (filter_length_perm _ (current_results data)
             (map (standing_of data) (parties data))).
  - rewrite filter_map_swap, length_map. reflexivity.
  - rewrite current_results_unfold. apply sort_values_desc_perm.
Qed.

Lemma filter_drop_one (p : string -> bool) b K :
  NoDup K -> In b K -> p b = true ->
  (List.length (filter (fun k => negb (String.eqb k b) && p k) K) + 1
   = List.length (filter p K))%nat.
Proof.
  induction 1 as [|k K Hk HK IH]; intros Hb Hp; [contradiction|].
  simpl. destruct (String.eqb_spec k b) as [->|Hne]; simpl.
  - rewrite Hp. simpl.
    rewrite (filter_ext_in (fun k => negb (String.eqb k b) && p k) p).
    + lia.
    + intros z Hz. destruct (String.eqb_spec z b) as [->|_];
        [contradiction|reflexivity].
  - destruct Hb as [Hb|Hb]; [congruence|].
    specialize (IH Hb Hp). destruct (p k); simpl; lia.
Qed.

Lemma live_after_round data b data' :
  bottom_party_name data = Ok b ->
  redistribute_bottom_points data = Ok data' ->
  (List.length (live_parties data') + 1 = List.length (live_parties data))%nat.
Proof.
  intros Hb R. unfold live_parties. rewrite (round_parties data data' R).
  destruct (bottom_party_name_standing data b Hb) as [HbK Hne].
  rewrite (filter_ext_in
             (fun k => fne (Standing.current_votes (standing_of data' k)) (Fin 0))
             (fun k => negb (String.eqb k b)
                       && fne (Standing.current_votes (standing_of data k))
                              (Fin 0))).
  - apply filter_drop_one; [apply unique_sorted_NoDup|exact HbK|exact Hne].
  - intros k Hk. rewrite (round_standing_current data b data' k Hb R Hk).
    destruct (String.eqb k b); reflexivity.
Qed.

Lemma live_bottom data :
  live_parties data <> [] -> exists b, bottom_party_name data = Ok b.
Proof.
  intros Hlive. destruct (bottom_party_name data) as [b|e] eqn:Hb; [eauto|].
  exfalso. apply Hlive. apply bottom_party_name_Raise in Hb.
  destruct Hb as [_ Hz]. unfold live_parties.
  destruct (filter _ (parties data)) as [|k l] eqn:E; [reflexivity|].
  exfalso.
  assert (Hin : In k (filter (fun k => fne (Standing.current_votes
                                              (standing_of data k)) (Fin 0))
                             (parties data)))
    by (rewrite E; left; reflexivity).
  apply filter_In in Hin. destruct Hin as [Hk Hne].
  unfold fne in Hne. rewrite Hz in Hne; [discriminate|].
  apply current_results_In. exists k. auto.
Qed.

Lemma loop_guard_nonempty data loop_count :
  data <> [] -> exists g, loop_guard data loop_count = Ok g.
Proof.
  intros Hne. destruct (top_party_votes_share_spec data Hne) as [v [Hv _]].
  unfold loop_guard. rewrite Hv. simpl. eauto.
Qed.

(** While the live parties outnumber the rounds still allowed, the loop
    cannot raise. *)
Lemma while_loop_live fuel :
  forall data loop_count out,
    data <> [] ->
    (distinct_parties data + 1
     <= List.length (live_parties data) + loop_count)%nat ->
    while_loop fuel data loop_count = Some out ->
    exists data' c,
      out = Exited data' c
      /\ (List.length (live_parties data') + c
          = List.length (live_parties data) + loop_count)%nat
      /\ distinct_parties data' = distinct_parties data
      /\ (loop_count <= c <= Nat.max loop_count (distinct_parties data))%nat.
Proof.
  induction fuel as [|fuel IH]; intros data lc out Hne Hlive H;
    rewrite while_loop_eq in H;
    destruct (loop_guard_nonempty data lc Hne) as [g G]; rewrite G in H;
    destruct g.
  - discriminate.
  - injection H as <-. exists data, lc. repeat split; lia.
  - apply loop_guard_true in G. destruct G as [_ [_ [_ G]]].
    destruct (live_bottom data) as [b Hb].
    { intros E. rewrite E in Hlive. simpl in Hlive. lia. }
    pose proof (bottom_party_name_round data b Hb) as R.
    rewrite R in H.
    pose proof (live_after_round data b _ Hb R) as Hl.
    pose proof (redistribute_distinct_parties data _ R) as HN.
    pose proof (round_length data _ R) as Hlen.
    apply IH in H.
    + destruct H as [data' [c [-> [H1 [H2 H3]]]]].
      exists data', c. split; [reflexivity|]. rewrite HN in *.
      repeat split; lia.
    + intros E. rewrite E in Hlen. destruct data; [congruence|simpl in Hlen; lia].
    + rewrite HN. lia.
  - injection H as <-. exists data, lc. repeat split; lia.
Qed.

Lemma all_live_length data :
  forallb (fun s => fne (Standing.current_votes s) (Fin 0))
          (current_results data) = true ->
  List.length (live_parties data) = distinct_parties data.
Proof.
  intros H. rewrite forallb_forall in H. unfold live_parties.
  rewrite (filter_ext_in _ (fun _ => true)).
  - rewrite <- current_results_distinct, current_results_unfold,
      sort_values_desc_length, length_map.
    clear. induction (parties data) as [|k K IH]; simpl; [reflexivity|].
    rewrite IH. reflexivity.
  - intros k Hk. apply (H (standing_of data k)).
    apply current_results_In. exists k. auto.
Qed.

Lemma distinct_parties_pos data : data <> [] -> (1 <= distinct_parties data)%nat.
Proof.
  intros Hne. rewrite <- current_results_distinct.
  pose proof (current_results_nonempty data Hne) as H.
  destruct (current_results data); [congruence|simpl; lia].
Qed.

(** X9. On a non-empty table in which every party has a nonzero
    [current_votes], the simulation cannot fail: with fuel for one round per
    party the loop is left normally and a tally is returned; each round run
    has zeroed one more party, and at least one party keeps a nonzero
    [current_votes]. *)
Theorem simulation_succeeds_when_every_party_has_votes fuel data :
  data <> [] ->
  forallb (fun s => fne (Standing.current_votes s) (Fin 0))
          (current_results data) = true ->
  (distinct_parties data <= fuel)%nat ->
  exists data' c tally,
    while_loop fuel data 1 = Some (Exited data' c)
    /\ simulateRankBasedElection fuel data = Some (Ok tally)
    /\ (nonzero_parties data' + rounds_run (Exited data' c)
        = distinct_parties data)%nat
    /\ (1 <= nonzero_parties data')%nat.
Proof.
  intros Hne Hall Hfuel.
  destruct (while_loop_terminates fuel data 1) as [out Hout]; [lia|].
  pose proof (all_live_length data Hall) as Hlen.
  pose proof (distinct_parties_pos data Hne) as Hpos.
  destruct (while_loop_live fuel data 1 out Hne) as [data' [c [-> [H1 [H2 H3]]]]];
    [lia|exact Hout|].
  exists data', c, (final_tally data' (diehard_frame data)).
  split; [exact Hout|].
  split; [unfold simulateRankBasedElection; rewrite Hout; reflexivity|].
  rewrite nonzero_parties_live. unfold rounds_run. split; lia.
Qed.

Lemma simulation_succeeds_when_every_party_has_votes_witness :
  three_party_poll <> []
  /\ forallb (fun s => fne (Standing.current_votes s) (Fin 0))
             (current_results three_party_poll) = true
  /\ (distinct_parties three_party_poll <= 3)%nat
  /\ exists data' c tally,
       while_loop 3 three_party_poll 1 = Some (Exited data' c)
       /\ simulateRankBasedElection 3 three_party_poll = Some (Ok tally)
       /\ (nonzero_parties data' + rounds_run (Exited data' c)
           = distinct_parties three_party_poll)%nat
       /\ (1 <= nonzero_parties data')%nat.
Proof.
  split; [discriminate|].
  split; [vm_compute; reflexivity|].
  split; [vm_compute; apply le_n|].
  apply (simulation_succeeds_when_every_party_has_votes 3 three_party_poll).
  - discriminate.
  - vm_compute. reflexivity.
  - vm_compute. apply le_n.
Defined.

Lemma forallb_false_ex {A : Type} (f : A -> bool) l :
  forallb f l = false -> exists x, In x l /\ f x = false.
Proof.
  induction l as [|x l IH]; simpl; [discriminate|].
  destruct (f x) eqn:E; simpl.
  - intros H. destruct (IH H) as [y [Hy Hf]]. exists y. auto.
  - intros _. exists x. auto.
Qed.

Lemma while_loop_exn fuel :
  forall data loop_count e c,
    while_loop fuel data loop_count = Some (GuardRaised e c)
    \/ while_loop fuel data loop_count = Some (RoundRaised e c) ->
    e = IndexError.
Proof.
  induction fuel as [|fuel IH]; intros data lc e c H;
    rewrite while_loop_eq in H;
    destruct (loop_guard data lc) as [[|]|e'] eqn:G.
  - destruct H; discriminate.
  - destruct H; discriminate.
  - unfold loop_guard in G.
    destruct (top_party_votes_share data) as [v|e''] eqn:T; [discriminate|].
    apply top_party_votes_share_Raise in T. simpl in G.
    destruct H as [H|H]; [|discriminate].
    injection H as <- _. injection G as <-. tauto.
  - destruct (redistribute_bottom_points data) as [d1|e''] eqn:R.
    + eapply IH; eauto.
    + apply redistribute_Raise, bottom_party_name_Raise in R.
      destruct H as [H|H]; [discriminate|]. injection H as <- _. tauto.
  - destruct H; discriminate.
  - unfold loop_guard in G.
    destruct (top_party_votes_share data) as [v|e''] eqn:T; [discriminate|].
    apply top_party_votes_share_Raise in T. simpl in G.
    destruct H as [H|H]; [|discriminate].
    injection H as <- _. injection G as <-. tauto.
Qed.

(** X10. The only exception [simulateRankBasedElection] can raise is
    [IndexError], and it can raise it only on an empty table or on a table
    in which some party has [current_votes] 0. *)
Theorem simulation_raises_only_IndexError fuel data e :
  simulateRankBasedElection fuel data = Some (Raise e) ->
  e = IndexError
  /\ (data = []
      \/ exists s, In s (current_results data)
                   /\ feq (Standing.current_votes s) (Fin 0) = true).
Proof.
  unfold simulateRankBasedElection. intros H.
  destruct (while_loop fuel data 1) as [[d c|e' c|e' c]|] eqn:L;
    try discriminate; injection H as ->.
  - split; [eapply while_loop_exn; left; exact L|].
    destruct data as [|r data]; [left; reflexivity|right].
    destruct (forallb (fun s => fne (Standing.current_votes s) (Fin 0))
                      (current_results (r :: data))) eqn:F.
    + exfalso.
      pose proof (all_live_length _ F) as Hlen.
      assert (Hne : r :: data <> []) by discriminate.
      assert (Hinv : (distinct_parties (r :: data) + 1
                      <= List.length (live_parties (r :: data)) + 1)%nat) by lia.
      destruct (while_loop_live fuel (r :: data) 1 _ Hne Hinv L)
        as [d' [c' [E _]]]. discriminate.
    + apply forallb_false_ex in F. destruct F as [s [Hs Hf]].
      exists s. split; [exact Hs|]. unfold fne in Hf.
      destruct (feq (Standing.current_votes s) (Fin 0)); [reflexivity|discriminate].
  - split; [eapply while_loop_exn; right; exact L|].
    destruct data as [|r data]; [left; reflexivity|right].
    destruct (forallb (fun s => fne (Standing.current_votes s) (Fin 0))
                      (current_results (r :: data))) eqn:F.
    + exfalso.
      pose proof (all_live_length _ F) as Hlen.
      assert (Hne : r :: data <> []) by discriminate.
      assert (Hinv : (distinct_parties (r :: data) + 1
                      <= List.length (live_parties (r :: data)) + 1)%nat) by lia.
      destruct (while_loop_live fuel (r :: data) 1 _ Hne Hinv L)
        as [d' [c' [E _]]]. discriminate.
    + apply forallb_false_ex in F. destruct F as [s [Hs Hf]].
      exists s. split; [exact Hs|]. unfold fne in Hf.
      destruct (feq (Standing.current_votes s) (Fin 0)); [reflexivity|discriminate].
Qed.

(** X11. The loop runs fewer rounds than the table has parties: at most
    [N - 1] calls of [redistribute_bottom_points] for [N] distinct
    [best_party] values, so none at all on a table with a single party,
    whatever its share. *)
Theorem elimination_loop_spares_one_party fuel data out :
  while_loop fuel data 1 = Some out ->
  (rounds_run out <= distinct_parties data - 1)%nat.
Proof.
  intros H. pose proof (while_loop_rounds fuel data 1 out (le_n 1) H). lia.
Qed.

Lemma elimination_loop_spares_one_party_witness :
  while_loop 3 lone_party 1 = Some (Exited lone_party 1)
  /\ (rounds_run (Exited lone_party 1) <= distinct_parties lone_party - 1)%nat.
Proof.
  split; [vm_compute; reflexivity|].
  apply (elimination_loop_spares_one_party 3 lone_party (Exited lone_party 1)).
  vm_compute. reflexivity.
Defined.

Lemma simulation_raises_only_IndexError_witness :
  simulateRankBasedElection 3 spent_poll = Some (Raise IndexError)
  /\ IndexError = IndexError
  /\ (spent_poll = []
      \/ exists s, In s (current_results spent_poll)
                   /\ feq (Standing.current_votes s) (Fin 0) = true).
Proof.
  split; [vm_compute; reflexivity|].
  apply (simulation_raises_only_IndexError 3 spent_poll IndexError).
  vm_compute. reflexivity.
Defined.

(** ** NaN in [redistributed_votes] *)

Lemma round_unmatched_nan data b data' p :
  bottom_party_name data = Ok b ->
  redistribute_bottom_points data = Ok data' ->
  (forall y, In y data -> Row.best_party y = b -> Row.next_best_party y <> p) ->
  forall r', In r' data' -> Row.best_party r' = p ->
             Row.redistributed_votes r' = NaN.
Proof.
  intros Hb R Hno r' Hr' Hp.
  apply (round_rows data b data' Hb R) in Hr'.
  destruct Hr' as [x [Hx [H1 [_ [_ [_ [_ H6]]]]]]].
  destruct H6 as [[Hn _]|[y [Hy [Hyb [Hyn _]]]]]; [exact Hn|].
  exfalso. apply (Hno y Hy Hyb). congruence.
Qed.

Lemma round_keeps_nan data data' p :
  (forall r, In r data -> Row.best_party r = p ->
             Row.redistributed_votes r = NaN) ->
  redistribute_bottom_points data = Ok data' ->
  forall r', In r' data' -> Row.best_party r' = p ->
             Row.redistributed_votes r' = NaN.
Proof.
  intros Hnan R r' Hr' Hp.
  destruct (redistribute_unfold _ _ R) as [b [Hb _]].
  apply (round_rows data b data' Hb R) in Hr'.
  destruct Hr' as [x [Hx [H1 [_ [_ [_ [_ H6]]]]]]].
  destruct H6 as [[Hn _]|[y [_ [_ [_ Hr]]]]]; [exact Hn|].
  rewrite Hr, (Hnan x Hx) by congruence. reflexivity.
Qed.

Lemma iter_rounds_keeps_nan p k :
  forall data data',
    (forall r, In r data -> Row.best_party r = p ->
               Row.redistributed_votes r = NaN) ->
    iter_rounds k data = Ok data' ->
    forall r', In r' data' -> Row.best_party r' = p ->
               Row.redistributed_votes r' = NaN.
Proof.
  induction k as [|k IH]; intros data data' Hnan H; simpl in H.
  - injection H as <-. exact Hnan.
  - destruct (redistribute_bottom_points data) as [d1|e] eqn:R;
      simpl in H; [|discriminate].
    eapply IH; [|exact H]. eapply round_keeps_nan; eauto.
Qed.

Lemma agg_mean_nans l : (forall x, In x l -> x = NaN) -> agg_mean l = NaN.
Proof.
  intros H. unfold agg_mean.
  assert (E : qvalues l = []).
  { induction l as [|x l IH]; [reflexivity|]. simpl.
    rewrite (H x) by (left; reflexivity). simpl.
    apply IH. intros y Hy. apply H. right; exact Hy. }
  rewrite E. reflexivity.
Qed.

(** Every row of the outer join carries its key, and the left columns of a
    left row with that key when there is one. *)
Lemma merge_outer_In left right y :
  In y (merge_outer left right) ->
  (In (Tally.best_party y) (map Party.best_party left)
   \/ In (Tally.best_party y) (map Diehard.best_party right))
  /\ ((exists x, In x left /\ Party.best_party x = Tally.best_party y) ->
      exists x, In x left /\ Party.best_party x = Tally.best_party y
                /\ Tally.current_votes y = Party.current_votes x
                /\ Tally.redistributed_votes y = Party.redistributed_votes x
                /\ Tally.initial_votes y = Party.initial_votes x)
  /\ ((Tally.diehard_votes y = NaN
       /\ filter (fun d => String.eqb (Diehard.best_party d) (Tally.best_party y))
                 right = [])
      \/ exists d, In d right
                   /\ Diehard.best_party d = Tally.best_party y
                   /\ Tally.diehard_votes y = Diehard.diehard_votes d).
Proof.
  unfold merge_outer. intros Hy. apply in_flat_map in Hy.
  destruct Hy as [k [Hk Hy]].
  apply unique_sorted_In, in_app_or in Hk.
  destruct (filter (fun p0 => String.eqb (Party.best_party p0) k) left)
    as [|x0 l0] eqn:El.
  - apply in_map_iff in Hy. destruct Hy as [d [<- Hd]]. simpl.
    apply filter_In in Hd. destruct Hd as [Hd Hdk]. apply String.eqb_eq in Hdk.
    split; [right; apply in_map_iff; exists d; auto|]. split.
    + intros [x [Hx Hxk]]. exfalso.
      assert (Hin : In x (filter (fun p0 => String.eqb (Party.best_party p0) k)
                                 left))
        by (apply filter_In; split; [exact Hx|apply String.eqb_eq; exact Hxk]).
      rewrite El in Hin. contradiction.
    + right. exists d. auto.
  - assert (Hl : forall x, In x (x0 :: l0) ->
                   In x left /\ Party.best_party x = k).
    { intros x Hx. rewrite <- El in Hx. apply filter_In in Hx.
      destruct Hx as [Hx Hxk]. apply String.eqb_eq in Hxk. auto. }
    destruct (filter (fun d => String.eqb (Diehard.best_party d) k) right)
      as [|d0 r0] eqn:Er.
    + apply in_map_iff in Hy. destruct Hy as [x [<- Hx]]. simpl.
      destruct (Hl x Hx) as [Hxl Hxk].
      split; [left; apply in_map_iff; exists x; auto|]. split.
      * intros _. exists x. auto.
      * left. auto.
    + apply in_flat_map in Hy. destruct Hy as [x [Hx Hy]].
      apply in_map_iff in Hy. destruct Hy as [d [<- Hd]]. simpl.
      destruct (Hl x Hx) as [Hxl Hxk].
      split; [left; apply in_map_iff; exists x; auto|]. split.
      * intros _. exists x. auto.
      * right. exists d. rewrite <- Er in Hd. apply filter_In in Hd.
        destruct Hd as [Hd Hdk]. apply String.eqb_eq in Hdk. auto.
Qed.

Lemma merge_outer_left_row left right x :
  In x left ->
  exists y, In y (merge_outer left right)
            /\ Tally.best_party y = Party.best_party x.
Proof.
  intros Hx. unfold merge_outer.
  assert (Hin : In x (filter (fun p0 => String.eqb (Party.best_party p0)
                                                   (Party.best_party x)) left))
    by (apply filter_In; split; [exact Hx|apply String.eqb_refl]).
  assert (Hk : In (Party.best_party x)
                  (unique_sorted (map Party.best_party left
                                  ++ map Diehard.best_party right))).
  { apply unique_sorted_In, in_or_app. left. apply in_map. exact Hx. }
  destruct (filter (fun d => String.eqb (Diehard.best_party d)
                                        (Party.best_party x)) right)
    as [|d0 r0] eqn:Er.
  - eexists. split.
    + apply in_flat_map. exists (Party.best_party x). split; [exact Hk|].
      rewrite Er.
      destruct (filter (fun p0 => String.eqb (Party.best_party p0)
                                             (Party.best_party x)) left)
        as [|x0 l0] eqn:El; [contradiction|].
      apply in_map_iff. exists x. split; [reflexivity|exact Hin].
    + reflexivity.
  - eexists. split.
    + apply in_flat_map. exists (Party.best_party x). split; [exact Hk|].
      rewrite Er.
      destruct (filter (fun p0 => String.eqb (Party.best_party p0)
                                             (Party.best_party x)) left)
        as [|x0 l0] eqn:El; [contradiction|].
      apply in_flat_map. exists x. split; [exact Hin|].
      left. reflexivity.
    + reflexivity.
Qed.

Lemma final_tally_In data' diehard_votes x :
  In x (final_tally data' diehard_votes) ->
  exists y, In y (merge_outer (collapse data') diehard_votes)
            /\ x = add_redistributed (restore_unbudged y)
            /\ Tally.best_party x = Tally.best_party y
            /\ Tally.redistributed_votes x = Tally.redistributed_votes y
            /\ Tally.diehard_votes x = Tally.diehard_votes y.
Proof.
  unfold final_tally. intros Hx. apply in_map_iff in Hx.
  destruct Hx as [z [<- Hz]]. apply in_map_iff in Hz.
  destruct Hz as [y [<- Hy]]. exists y. split; [exact Hy|].
  split; [reflexivity|]. unfold restore_unbudged.
  destruct (feq (Tally.current_votes y) (Fin 0)); simpl; auto.
Qed.

Lemma restored_row y :
  Tally.initial_votes (add_redistributed (restore_unbudged y))
  = Tally.initial_votes y
  /\ Tally.current_votes (add_redistributed (restore_unbudged y))
     = fadd (if feq (Tally.current_votes y) (Fin 0)
             then Tally.diehard_votes y else Tally.current_votes y)
            (Tally.redistributed_votes y).
Proof.
  unfold restore_unbudged.
  destruct (feq (Tally.current_votes y) (Fin 0)); simpl; auto.
Qed.

Lemma final_tally_nan data' diehard_votes p :
  In p (parties data') ->
  (forall r, In r data' -> Row.best_party r = p ->
             Row.redistributed_votes r = NaN) ->
  (exists x, In x (final_tally data' diehard_votes) /\ Tally.best_party x = p)
  /\ forall x, In x (final_tally data' diehard_votes) ->
               Tally.best_party x = p ->
               Tally.current_votes x = NaN
               /\ Tally.redistributed_votes x = NaN.
Proof.
  intros Hp Hnan.
  assert (Hc : exists c, In c (collapse data') /\ Party.best_party c = p
                         /\ Party.redistributed_votes c = NaN).
  { eexists. split; [apply collapse_In; exists p; split; [exact Hp|reflexivity]|].
    split; [reflexivity|]. simpl. apply agg_mean_nans.
    intros v Hv. apply in_map_iff in Hv. destruct Hv as [r [<- Hr]].
    apply rows_of_In in Hr. destruct Hr as [Hr Hrp]. apply Hnan; auto. }
  destruct Hc as [c [Hc [Hcp Hcr]]].
  split.
  - destruct (merge_outer_left_row (collapse data') diehard_votes c Hc)
      as [y [Hy Hyk]].
    exists (add_redistributed (restore_unbudged y)). split.
    + unfold final_tally. apply in_map, in_map. exact Hy.
    + simpl. unfold restore_unbudged.
      destruct (feq (Tally.current_votes y) (Fin 0)); simpl; congruence.
  - intros x Hx Hxp. apply final_tally_In in Hx.
    destruct Hx as [y [Hy [-> [Hk [Hr _]]]]].
    destruct (merge_outer_In _ _ _ Hy) as [_ [Hleft _]].
    destruct Hleft as [c' [Hc' [Hc'k [_ [Hc'r _]]]]].
    { exists c. split; [exact Hc|]. congruence. }
    assert (Hyr : Tally.redistributed_votes y = NaN).
    { rewrite Hc'r. apply collapse_In in Hc'. destruct Hc' as [k [Hk' ->]].
      simpl in *. apply agg_mean_nans.
      intros v Hv. apply in_map_iff in Hv. destruct Hv as [r [<- Hr']].
      apply rows_of_In in Hr'. destruct Hr' as [Hr' Hrp].
      apply Hnan; [exact Hr'|congruence]. }
    split; [|rewrite Hr; exact Hyr].
    simpl. unfold restore_unbudged.
    destruct (feq (Tally.current_votes y) (Fin 0)); simpl; rewrite Hyr;
      match goal with |- fadd ?a NaN = NaN => destruct a; reflexivity end.
Qed.

(** X12. A party on which some round of the run passes nothing stays
    without a tally.  Let the loop be left normally after a round [j + 1]
    with bottom party [b], and let [p] be a party of the table that no row
    of [b] names as [next_best_party].  Then the simulation returns a tally
    that has a row for [p], and on every such row both [redistributed_votes]
    and the final [current_votes] are NaN, whatever [p] received in other
    rounds. *)
Theorem party_skipped_by_a_round_ends_nan fuel data data' c j tj b p :
  while_loop fuel data 1 = Some (Exited data' c) ->
  (S j < c)%nat ->
  iter_rounds j data = Ok tj ->
  bottom_party_name tj = Ok b ->
  In p (map Row.best_party data) ->
  (forall y, In y tj -> Row.best_party y = b -> Row.next_best_party y <> p) ->
  exists tally,
    simulateRankBasedElection fuel data = Some (Ok tally)
    /\ (exists x, In x tally /\ Tally.best_party x = p)
    /\ (forall x, In x tally -> Tally.best_party x = p ->
                  Tally.current_votes x = NaN
                  /\ Tally.redistributed_votes x = NaN).
Proof.
  intros Hloop Hj Htj Hb Hp Hno.
  exists (final_tally data' (diehard_frame data)).
  split; [unfold simulateRankBasedElection; rewrite Hloop; reflexivity|].
  apply while_loop_sound in Hloop.
  destruct Hloop as [k [-> [_ [Hit _]]]].
  assert (Hk : k = (j + S (k - S j))%nat) by lia.
  rewrite Hk, iter_rounds_add, Htj in Hit. simpl in Hit.
  destruct (redistribute_bottom_points tj) as [t1|e] eqn:R;
    simpl in Hit; [|discriminate].
  apply final_tally_nan.
  - eapply iter_rounds_parties; [exact Hit|].
    eapply redistribute_parties; [exact R|].
    eapply iter_rounds_parties; [exact Htj|].
    apply unique_sorted_In. exact Hp.
  - eapply iter_rounds_keeps_nan; [|exact Hit].
    eapply round_unmatched_nan; eauto.
Qed.

Lemma party_skipped_by_a_round_ends_nan_witness :
  while_loop 3 chain_poll 1 = Some (Exited chain_round1 2)
  /\ (1 < 2)%nat
  /\ iter_rounds 0 chain_poll = Ok chain_poll
  /\ bottom_party_name chain_poll = Ok "Z"%string
  /\ In "Y"%string (map Row.best_party chain_poll)
  /\ forallb (fun y => negb (String.eqb (Row.best_party y) "Z")
                       || negb (String.eqb (Row.next_best_party y) "Y"))
             chain_poll = true
  /\ exists tally,
       simulateRankBasedElection 3 chain_poll = Some (Ok tally)
       /\ (exists x, In x tally /\ Tally.best_party x = "Y"%string)
       /\ (forall x, In x tally -> Tally.best_party x = "Y"%string ->
                     Tally.current_votes x = NaN
                     /\ Tally.redistributed_votes x = NaN).
Proof.
  split; [vm_compute; reflexivity|].
  split; [apply le_n|].
  split; [reflexivity|].
  split; [vm_compute; reflexivity|].
  split; [vm_compute; right; left; reflexivity|].
  split; [vm_compute; reflexivity|].
  apply (party_skipped_by_a_round_ends_nan
           3 chain_poll chain_round1 2 0 chain_poll "Z" "Y").
  - vm_compute. reflexivity.
  - apply le_n.
  - reflexivity.
  - vm_compute. reflexivity.
  - vm_compute. right. left. reflexivity.
  - intros y Hy Hb Hn.
    assert (H : forallb (fun y => negb (String.eqb (Row.best_party y) "Z")
                                  || negb (String.eqb (Row.next_best_party y) "Y"))
                        chain_poll = true)
      by (vm_compute; reflexivity).
    rewrite forallb_forall in H. specialize (H y Hy).
    apply String.eqb_eq in Hb. apply String.eqb_eq in Hn.
    rewrite Hb, Hn in H. discriminate.
Defined.

(** ** The rows of the final tally *)

Lemma filter_key_unique {A : Type} (key : A -> string) k l :
  NoDup (map key l) ->
  (List.length (filter (fun x => String.eqb (key x) k) l) <= 1)%nat.
Proof.
  induction l as [|x l IH]; simpl; intros Hnd; [lia|].
  apply NoDup_cons_iff in Hnd. destruct Hnd as [Hx Hnd].
  destruct (String.eqb_spec (key x) k) as [E|_]; [|apply IH; exact Hnd].
  simpl. destruct (filter (fun x => String.eqb (key x) k) l) as [|y l'] eqn:F;
    [simpl; lia|].
  exfalso. apply Hx.
  assert (Hin : In y (filter (fun x => String.eqb (key x) k) l))
    by (rewrite F; left; reflexivity).
  apply filter_In in Hin. destruct Hin as [Hin Hk].
  apply String.eqb_eq in Hk. rewrite E, <- Hk. apply in_map. exact Hin.
Qed.

Lemma filter_key_present {A : Type} (key : A -> string) k l :
  In k (map key l) -> filter (fun x => String.eqb (key x) k) l <> [].
Proof.
  intros Hk E. apply in_map_iff in Hk. destruct Hk as [x [Hx Hin]].
  assert (H : In x (filter (fun x => String.eqb (key x) k) l))
    by (apply filter_In; split; [exact Hin|apply String.eqb_eq; exact Hx]).
  rewrite E in H. contradiction.
Qed.

Lemma filter_key_absent {A : Type} (key : A -> string) k l :
  ~ In k (map key l) -> filter (fun x => String.eqb (key x) k) l = [].
Proof.
  intros Hk. destruct (filter (fun x => String.eqb (key x) k) l) as [|y l'] eqn:F;
    [reflexivity|].
  exfalso. apply Hk.
  assert (Hin : In y (filter (fun x => String.eqb (key x) k) l))
    by (rewrite F; left; reflexivity).
  apply filter_In in Hin. destruct Hin as [Hin Hy].
  apply String.eqb_eq in Hy. rewrite <- Hy. apply in_map. exact Hin.
Qed.

Lemma merge_outer_keys left right :
  NoDup (map Party.best_party left) ->
  NoDup (map Diehard.best_party right) ->
  map Tally.best_party (merge_outer left right)
  = unique_sorted (map Party.best_party left ++ map Diehard.best_party right).
Proof.
  intros Hl Hr. unfold merge_outer. rewrite map_flat_map.
  rewrite (flat_map_singletons _ (fun k => k)); [apply map_id|].
  intros k Hk. apply unique_sorted_In, in_app_or in Hk.
  pose proof (filter_key_unique Party.best_party k left Hl) as Ll.
  pose proof (filter_key_unique Diehard.best_party k right Hr) as Lr.
  destruct (filter (fun p0 => String.eqb (Party.best_party p0) k) left)
    as [|x [|x' l0]] eqn:El; simpl in Ll; try lia;
    destruct (filter (fun d => String.eqb (Diehard.best_party d) k) right)
      as [|d [|d' r0]] eqn:Er; simpl in Lr; try lia; try reflexivity.
  exfalso. destruct Hk as [Hk|Hk].
  - apply (filter_key_present Party.best_party k left Hk). exact El.
  - apply (filter_key_present Diehard.best_party k right Hk). exact Er.
Qed.

Lemma collapse_keys data : map Party.best_party (collapse data) = parties data.
Proof.
  unfold collapse, groupby. rewrite !map_map. simpl. apply map_id.
Qed.

Lemma diehard_frame_keys_eq data :
  map Diehard.best_party (diehard_frame data)
  = unique_sorted (map Row.best_party (filter no_next_best data)).
Proof.
  unfold diehard_frame, groupby. rewrite !map_map. simpl. rewrite map_id.
  reflexivity.
Qed.

Lemma diehard_frame_keys_NoDup data :
  NoDup (map Diehard.best_party (diehard_frame data)).
Proof. rewrite diehard_frame_keys_eq. apply unique_sorted_NoDup. Qed.

Lemma final_tally_keys data' diehard_votes :
  map Tally.best_party (final_tally data' diehard_votes)
  = map Tally.best_party (merge_outer (collapse data') diehard_votes).
Proof.
  unfold final_tally. rewrite !map_map. apply map_ext. intros y.
  simpl. unfold restore_unbudged.
  destruct (feq (Tally.current_votes y) (Fin 0)); reflexivity.
Qed.

Lemma iter_rounds_parties_eq k :
  forall data data', iter_rounds k data = Ok data' ->
                     parties data' = parties data.
Proof.
  induction k as [|k IH]; intros data data' H; simpl in H.
  - injection H as <-. reflexivity.
  - destruct (redistribute_bottom_points data) as [d1|e] eqn:R;
      simpl in H; [|discriminate].
    rewrite (IH d1 data' H). apply round_parties. exact R.
Qed.

Lemma simulate_Ok fuel data tally :
  simulateRankBasedElection fuel data = Some (Ok tally) ->
  exists data' k,
    iter_rounds k data = Ok data'
    /\ while_loop fuel data 1 = Some (Exited data' (S k))
    /\ tally = final_tally data' (diehard_frame data).
Proof.
  unfold simulateRankBasedElection. intros H.
  destruct (while_loop fuel data 1) as [[d c|e c|e c]|] eqn:L;
    try discriminate.
  injection H as <-.
  destruct (while_loop_sound fuel data 1 d c L) as [k [-> [_ [Hit _]]]].
  exists d, k. auto.
Qed.

Lemma tally_keys fuel data tally :
  simulateRankBasedElection fuel data = Some (Ok tally) ->
  NoDup (map Tally.best_party tally)
  /\ forall k, In k (map Tally.best_party tally)
               <-> In k (map Row.best_party data).
Proof.
  intros H. destruct (simulate_Ok fuel data tally H) as [data' [k [Hit [_ ->]]]].
  rewrite final_tally_keys, merge_outer_keys.
  - split; [apply unique_sorted_NoDup|].
    intros p. rewrite unique_sorted_In, in_app_iff, collapse_keys,
      (iter_rounds_parties_eq k data data' Hit).
    unfold parties. rewrite unique_sorted_In. split; [|auto].
    intros [Hp|Hp]; [exact Hp|].
    apply in_map_iff in Hp. destruct Hp as [d [<- Hd]].
    apply diehard_frame_keys in Hd. destruct Hd as [r [Hr [_ <-]]].
    apply in_map. exact Hr.
  - rewrite collapse_keys. apply unique_sorted_NoDup.
  - apply diehard_frame_keys_NoDup.
Qed.

(** X13. A tally returned by [simulateRankBasedElection] has exactly one
    row for each [best_party] value of the input table, and no other row. *)
Theorem tally_has_one_row_per_party fuel data tally :
  simulateRankBasedElection fuel data = Some (Ok tally) ->
  NoDup (map Tally.best_party tally)
  /\ forall k, In k (map Tally.best_party tally)
               <-> In k (map Row.best_party data).
Proof. exact (tally_keys fuel data tally). Qed.

Lemma tally_has_one_row_per_party_witness :
  exists tally,
    simulateRankBasedElection 3 three_party_poll = Some (Ok tally)
    /\ NoDup (map Tally.best_party tally)
    /\ forall k, In k (map Tally.best_party tally)
                 <-> In k (map Row.best_party three_party_poll).
Proof.
  eexists. split; [vm_compute; reflexivity|].
  apply (tally_has_one_row_per_party 3 three_party_poll).
  vm_compute. reflexivity.
Defined.

Lemma filter_filter_comm {A : Type} (p q : A -> bool) l :
  filter p (filter q l) = filter q (filter p l).
Proof.
  induction l as [|x l IH]; simpl; [reflexivity|].
  destruct (p x) eqn:P, (q x) eqn:Q; simpl; rewrite ?P, ?Q, IH; reflexivity.
Qed.

Lemma diehard_frame_In data d :
  In d (diehard_frame data) ->
  d = Diehard.mk (Diehard.best_party d)
        (diehard_total data (Diehard.best_party d))
  /\ existsb no_next_best (rows_of data (Diehard.best_party d)) = true.
Proof.
  intros Hd. pose proof (diehard_frame_keys data d Hd) as [r [Hr [Hn Hk]]].
  split.
  - unfold diehard_frame, groupby in Hd. rewrite map_map in Hd.
    apply in_map_iff in Hd. destruct Hd as [k [<- _]]. simpl.
    f_equal. unfold diehard_total. f_equal.
    rewrite filter_map_swap, map_map. simpl.
    unfold rows_of. rewrite (filter_filter_comm no_next_best). reflexivity.
  - apply existsb_exists. exists r. split; [|exact Hn].
    apply rows_of_In. auto.
Qed.

Lemma tally_rows fuel data data' c x :
  while_loop fuel data 1 = Some (Exited data' c) ->
  In x (final_tally data' (diehard_frame data)) ->
  In (Tally.best_party x) (map Row.best_party data)
  /\ Tally.initial_votes x
     = agg_mean (map Row.initial_votes (rows_of data' (Tally.best_party x)))
  /\ Tally.redistributed_votes x
     = agg_mean (map Row.redistributed_votes
                     (rows_of data' (Tally.best_party x)))
  /\ Tally.diehard_votes x
     = (if existsb no_next_best (rows_of data (Tally.best_party x))
        then diehard_total data (Tally.best_party x) else NaN)
  /\ Tally.current_votes x
     = fadd (if feq (agg_mean (map Row.current_votes
                                   (rows_of data' (Tally.best_party x))))
                    (Fin 0)
             then Tally.diehard_votes x
             else agg_mean (map Row.current_votes
                                (rows_of data' (Tally.best_party x))))
            (Tally.redistributed_votes x).
Proof.
  intros L Hx.
  destruct (while_loop_sound fuel data 1 data' c L) as [k [-> [_ [Hit _]]]].
  pose proof (iter_rounds_parties_eq k data data' Hit) as HP.
  assert (Hkey : In (Tally.best_party x) (map Row.best_party data)).
  { assert (Hin : In (Tally.best_party x)
                     (map Tally.best_party
                          (final_tally data' (diehard_frame data))))
      by (apply in_map; exact Hx).
    apply (tally_keys fuel data (final_tally data' (diehard_frame data)));
      [|exact Hin].
    unfold simulateRankBasedElection. rewrite L. reflexivity. }
  split; [exact Hkey|].
  apply final_tally_In in Hx. destruct Hx as [y [Hy [-> [Hk [Hr Hd]]]]].
  destruct (restored_row y) as [Hi Hc].
  rewrite Hk in Hkey. rewrite Hk, Hr, Hd, Hi, Hc. clear Hk Hr Hd Hi Hc.
  destruct (merge_outer_In _ _ _ Hy) as [_ [Hleft Hright]].
  destruct Hleft as [cl [Hcl [Hclk [Hc1 [Hc2 Hc3]]]]].
  { eexists. split; [apply collapse_In; eexists; split; [|reflexivity]|].
    - rewrite HP. apply unique_sorted_In. exact Hkey.
    - reflexivity. }
  apply collapse_In in Hcl. destruct Hcl as [k' [_ ->]]. simpl in *. subst k'.
  assert (Hdie : Tally.diehard_votes y
                 = if existsb no_next_best (rows_of data (Tally.best_party y))
                   then diehard_total data (Tally.best_party y) else NaN).
  { destruct Hright as [[Hn Hf]|[d [Hd' [Hdk Hdv]]]].
    - rewrite Hn.
      destruct (existsb no_next_best (rows_of data (Tally.best_party y))) eqn:E;
        [|reflexivity].
      exfalso. apply existsb_exists in E. destruct E as [r [Hr' Hn']].
      apply rows_of_In in Hr'. destruct Hr' as [Hr' Hrk].
      apply (filter_key_present Diehard.best_party (Tally.best_party y)
               (diehard_frame data)); [|exact Hf].
      rewrite diehard_frame_keys_eq. apply unique_sorted_In.
      apply in_map_iff. exists r. split; [exact Hrk|].
      apply filter_In. auto.
    - apply diehard_frame_In in Hd'. destruct Hd' as [Ed Hex].
      rewrite Hdk in *. rewrite Hex, Hdv, Ed. reflexivity. }
  split; [exact Hc3|]. split; [exact Hc2|]. split; [exact Hdie|].
  rewrite Hc1. reflexivity.
Qed.

(** X14. How each row of the tally is computed.  When the loop is left
    normally with table [data'], the row of a party in the tally carries the
    means of [initial_votes] and of [redistributed_votes] over the party's
    rows in [data']; as [diehard_votes] the input's
    [initial_votes * redistribution_share] summed over the party's rows
    without a usable second preference, or NaN when it has no such row; and
    as [current_votes] the sum of [redistributed_votes] and of the mean
    [current_votes], with [diehard_votes] standing in for a mean that
    is 0. *)
Theorem tally_row_formula fuel data data' c :
  while_loop fuel data 1 = Some (Exited data' c) ->
  exists tally,
    simulateRankBasedElection fuel data = Some (Ok tally)
    /\ forall x,
         In x tally ->
         In (Tally.best_party x) (map Row.best_party data)
         /\ Tally.initial_votes x
            = agg_mean (map Row.initial_votes
                            (rows_of data' (Tally.best_party x)))
         /\ Tally.redistributed_votes x
            = agg_mean (map Row.redistributed_votes
                            (rows_of data' (Tally.best_party x)))
         /\ Tally.diehard_votes x
            = (if existsb no_next_best (rows_of data (Tally.best_party x))
               then diehard_total data (Tally.best_party x) else NaN)
         /\ Tally.current_votes x
            = fadd (if feq (agg_mean (map Row.current_votes
                                          (rows_of data' (Tally.best_party x))))
                           (Fin 0)
                    then Tally.diehard_votes x
                    else agg_mean (map Row.current_votes
                                       (rows_of data' (Tally.best_party x))))
                   (Tally.redistributed_votes x).
Proof.
  intros L. exists (final_tally data' (diehard_frame data)).
  split; [unfold simulateRankBasedElection; rewrite L; reflexivity|].
  intros x Hx. exact (tally_rows fuel data data' c x L Hx).
Qed.

Lemma tally_row_formula_witness :
  while_loop 3 three_party_poll 1 = Some (Exited three_party_round2 3)
  /\ exists tally,
       simulateRankBasedElection 3 three_party_poll = Some (Ok tally)
       /\ forall x,
            In x tally ->
            In (Tally.best_party x) (map Row.best_party three_party_poll)
            /\ Tally.initial_votes x
               = agg_mean (map Row.initial_votes
                               (rows_of three_party_round2 (Tally.best_party x)))
            /\ Tally.redistributed_votes x
               = agg_mean (map Row.redistributed_votes
                               (rows_of three_party_round2 (Tally.best_party x)))
            /\ Tally.diehard_votes x
               = (if existsb no_next_best
                             (rows_of three_party_poll (Tally.best_party x))
                  then diehard_total three_party_poll (Tally.best_party x)
                  else NaN)
            /\ Tally.current_votes x
               = fadd (if feq (agg_mean
                                 (map Row.current_votes
                                      (rows_of three_party_round2
                                               (Tally.best_party x))))
                              (Fin 0)
                       then Tally.diehard_votes x
                       else agg_mean
                              (map Row.current_votes
                                   (rows_of three_party_round2
                                            (Tally.best_party x))))
                      (Tally.redistributed_votes x).
Proof.
  split; [vm_compute; reflexivity|].
  apply (tally_row_formula 3 three_party_poll three_party_round2 3).
  vm_compute. reflexivity.
Defined.

(** ** bloc *)

(** X15. [bloc] returns one of four labels, and "Alliansen" exactly for the
    codes M, C, L and KD. *)
Theorem bloc_labels party :
  (forall b, bloc party = Ok b ->
             In b ["Socialdemokratin"; "SD"; "Alliansen"; "övriga"]%string)
  /\ (bloc party = Ok "Alliansen"%string
      <-> In party ["M"; "C"; "L"; "KD"]%string).
Proof.
  destruct (in_dec string_dec party (map fst bloc_table)) as [Hin|Hnin].
  - simpl in Hin.
    repeat (destruct Hin as [<-|Hin];
            [split;
             [intros b H; vm_compute in H; injection H as <-; simpl; tauto
             |split;
              [intros H; vm_compute in H;
               first [discriminate | simpl; tauto]
              |intros H; simpl in H;
               repeat (destruct H as [H|H];
                       [first [discriminate | reflexivity]|]);
               contradiction]]
            |]).
    contradiction.
  - unfold bloc. rewrite (dict_get_not_In _ _ Hnin). split.
    + intros b H. discriminate.
    + split; [discriminate|].
      intros H. exfalso. apply Hnin. simpl in *. tauto.
Qed.
